(** * VirtualTree: a shallow embedding of the virtualised tree engine

    Source files modelled here:
    - [src/components/VirtualTree/index.jsx]   (the virtualisation engine)
    - [src/components/VirtualTree/TreeNode.jsx] (the row renderer)

    Conventions of the embedding.
    - A JS string key that may be absent is an [option string]; a JS [Set]
      of keys is a [gset (option string)] (a [Set] may hold [undefined]).
    - The own properties of the [nodeHeights] object and of the
      [heightCacheRef] object are a [gmap string Z]; reading a key goes
      through [getProp], which also sees the members inherited from
      [Object.prototype].  Measured heights, offsets and the viewport are
      whole pixels ([Z]); sums and comparisons of numbers are exact.
    - Pointer geometry of the row renderer (clientY, rect.top, rect.height)
      is rational ([Q]); the constants 0.25 and 0.75 are [1#4] and [3#4].
    - React callbacks that are props ([onNodeExpand], [onDrop]) may be
      absent; a call of a callback is recorded in the list of notifications
      an operation returns. *)

From Stdlib Require Import QArith Lqa.
From stdpp Require Import base gmap sets list strings sorting pretty.

Open Scope Z_scope.

(** ** Data model *)

(** A node of the caller's tree.  [children] absent and [children] empty
    are both "no children" for every test the source makes
    ([node.children && node.children.length > 0]); they are one case here. *)
#[local] Unset Elimination Schemes.
Inductive TreeNode : Type :=
  mkTreeNode { key : option string; title : string; children : list TreeNode }.
#[local] Set Elimination Schemes.

(** The object built in [flattenTree]: [{...node, key, level, parentKey,
    hasChildren, isExpanded}]. *)
Record FlattenedRow : Type := mkRow {
  row_node : TreeNode;
  row_key : string;
  level : nat;
  parentKey : option string;
  hasChildren : bool;
  isExpanded : bool
}.

(** JS truthiness of [node.key]: absent and the empty string are falsy. *)
Definition truthyKey (k : option string) : bool :=
  match k with
  | Some s => negb (String.eqb s "")
  | None => false
  end.

(** The template literal [`${parentKey}-${index}`]; [null] prints as "null". *)
Definition synthKey (parentKey : option string) (index : nat) : string :=
  (default "null" parentKey +:+ "-" +:+ pretty index)%string.

(** [node.key || `${parentKey}-${index}`] *)
Definition effectiveKey (parentKey : option string) (index : nat) (node : TreeNode) : string :=
  match key node with
  | Some s => if truthyKey (Some s) then s else synthKey parentKey index
  | None => synthKey parentKey index
  end.

Definition nonEmpty {A} (l : list A) : bool :=
  match l with [] => false | _ :: _ => true end.

(** The [item] of one iteration of [flattenTree]'s [forEach]. *)
Definition makeRow (expanded : gset (option string)) (lvl : nat)
    (pk : option string) (index : nat) (node : TreeNode) : FlattenedRow :=
  let k := effectiveKey pk index node in
  {| row_node := node;
     row_key := k;
     level := lvl;
     parentKey := pk;
     hasChildren := nonEmpty (children node);
     isExpanded := bool_decide (Some k ∈ expanded) |}.

(** [flattenTree], one node: push the item, then the rows of its children
    when it has children and is expanded.  The inner [fix] is the
    [forEach] over [node.children] with its running index. *)
Fixpoint flattenNode (expanded : gset (option string)) (lvl : nat)
    (pk : option string) (index : nat) (node : TreeNode) {struct node}
    : list FlattenedRow :=
  let item := makeRow expanded lvl pk index node in
  item ::
  match node with
  | mkTreeNode _ _ kids =>
      if hasChildren item && isExpanded item then
        (fix each (items : list TreeNode) (i : nat) {struct items} : list FlattenedRow :=
           match items with
           | [] => []
           | c :: rest =>
               flattenNode expanded (S lvl) (Some (row_key item)) i c
                 ++ each rest (S i)
           end) kids 0%nat
      else []
  end.

(** The [forEach((node, index) => ...)] of [flattenTree] from index [i]. *)
Fixpoint flattenFrom (expanded : gset (option string)) (lvl : nat)
    (pk : option string) (i : nat) (items : list TreeNode) : list FlattenedRow :=
  match items with
  | [] => []
  | c :: rest =>
      flattenNode expanded lvl pk i c ++ flattenFrom expanded lvl pk (S i) rest
  end.

(** [flattenTree(nodes, level = 0, parentKey = null)] *)
Definition flattenTree (expanded : gset (option string))
    (nodes : list TreeNode) (lvl : nat) (pk : option string) : list FlattenedRow :=
  flattenFrom expanded lvl pk 0 nodes.

(** [getAllKeys]: the keys of the nodes that have children, the node's own
    [key] field as it stands (pushed before the keys of its subtree). *)
Fixpoint getAllKeysNode (node : TreeNode) {struct node} : list (option string) :=
  match node with
  | mkTreeNode k _ kids =>
      if nonEmpty kids then
        k :: (fix traverse (items : list TreeNode) : list (option string) :=
                match items with
                | [] => []
                | c :: rest => getAllKeysNode c ++ traverse rest
                end) kids
      else []
  end.

Fixpoint traverse (items : list TreeNode) : list (option string) :=
  match items with
  | [] => []
  | c :: rest => getAllKeysNode c ++ traverse rest
  end.

Definition getAllKeys (nodes : list TreeNode) : list (option string) := traverse nodes.

(** ** Plain objects and the values of the layout

    [nodeHeights] and [heightCacheRef.current] are plain objects ([{}]),
    read and written with a row key between brackets.  A plain object
    inherits the members of [Object.prototype]: reading a key that is not an
    own property but names one of them yields that member (a function, or
    [Object.prototype] itself for "__proto__"), not [undefined].  The own
    properties the code creates hold numbers; they are a [gmap string Z]. *)

(** The names of the members of [Object.prototype]. *)
Definition prototypeMembers : list string :=
  ["constructor"; "__defineGetter__"; "__defineSetter__"; "hasOwnProperty";
   "__lookupGetter__"; "__lookupSetter__"; "isPrototypeOf";
   "propertyIsEnumerable"; "toString"; "valueOf"; "__proto__";
   "toLocaleString"]%string.

(** What the layout computes with: a number, or a value that is not one (an
    inherited function or object, or the string that [+] makes of such a
    value and anything else).  Such a string never reads as a number: it
    holds the text of the function or "[object Object]". *)
Inductive JSValue : Type :=
  | Num (z : Z)
  | NotNumber.

Coercion Num : Z >-> JSValue.

#[global] Instance JSValue_eq_dec : EqDecision JSValue.
Proof. solve_decision. Defined.

(** [obj[k]]: [None] is [undefined]. *)
Definition getProp (own : gmap string Z) (k : string) : option JSValue :=
  match own !! k with
  | Some z => Some (Num z)
  | None => if bool_decide (k ∈ prototypeMembers) then Some NotNumber else None
  end.

(** [obj[k] = v] with a number [v]: an own property is created or updated,
    except that for "__proto__" (when it is not an own property) the
    assignment runs the inherited setter, which ignores a number. *)
Definition assignProp (k : string) (v : Z) (own : gmap string Z) : gmap string Z :=
  if String.eqb k "__proto__" && negb (bool_decide (is_Some (own !! k))) then own
  else <[k := v]> own.

(** [{...prev, [k]: v}]: a computed key always defines an own property. *)
Definition spreadWith (k : string) (v : Z) (prev : gmap string Z) : gmap string Z :=
  <[k := v]> prev.

(** [a + b]: the sum of two numbers, a string otherwise. *)
Definition jsAdd (a b : JSValue) : JSValue :=
  match a, b with
  | Num x, Num y => Num (x + y)
  | _, _ => NotNumber
  end.

(** [a >= n] and [a > n] against a number: a value that is not a number
    converts to NaN, and every comparison with NaN is false. *)
Definition jsGe (a : JSValue) (n : Z) : bool :=
  match a with Num x => x >=? n | NotNumber => false end.

Definition jsGt (a : JSValue) (n : Z) : bool :=
  match a with Num x => x >? n | NotNumber => false end.

(** ** Layout *)

Record Position : Type := mkPosition { pos_key : string; top : JSValue; height : JSValue }.

(** [nodeHeights[node.key] || itemMinHeight]: [undefined] and the number 0
    are falsy; an inherited member is truthy and is the height. *)
Definition rowHeight (heights : gmap string Z) (minHeight : Z) (k : string) : JSValue :=
  match getProp heights k with
  | Some (Num h) => if h =? 0 then Num minHeight else Num h
  | Some NotNumber => NotNumber
  | None => Num minHeight
  end.

(** The [forEach] of the [positions] memo, [currentTop] threaded through;
    the second component is [currentTop] after the last row. *)
Fixpoint layoutFrom (heights : gmap string Z) (minHeight : Z) (currentTop : JSValue)
    (rows : list FlattenedRow) : list Position * JSValue :=
  match rows with
  | [] => ([], currentTop)
  | node :: rest =>
      let h := rowHeight heights minHeight (row_key node) in
      let '(ps, total) := layoutFrom heights minHeight (jsAdd currentTop h) rest in
      ({| pos_key := row_key node; top := currentTop; height := h |} :: ps, total)
  end.

Definition layout (heights : gmap string Z) (minHeight : Z) (rows : list FlattenedRow)
    : list Position * JSValue :=
  layoutFrom heights minHeight (Num 0) rows.

(** ** Viewport intersection *)

(** [positions[i].top + positions[i].height >= viewportTop] *)
Definition bottomReaches (viewportTop : Z) (p : Position) : bool :=
  jsGe (jsAdd (top p) (height p)) viewportTop.

(** [positions[i].top > viewportBottom] *)
Definition topExceeds (viewportBottom : Z) (p : Position) : bool :=
  jsGt (top p) viewportBottom.

(** First loop of [visibleRange]: [i] is the loop index, [ps] the rows from
    index [i] on; [start] keeps its initial value 0 when no row breaks. *)
Fixpoint findStart (overscan viewportTop : Z) (i : nat) (ps : list Position) : Z :=
  match ps with
  | [] => 0
  | p :: rest =>
      if bottomReaches viewportTop p then Z.max 0 (Z.of_nat i - overscan)
      else findStart overscan viewportTop (S i) rest
  end.

(** Second loop: [last] is [positions.length - 1], the initial [end]. *)
Fixpoint findEnd (overscan viewportBottom last : Z) (i : nat) (ps : list Position) : Z :=
  match ps with
  | [] => last
  | p :: rest =>
      if topExceeds viewportBottom p then Z.min last (Z.of_nat i + overscan)
      else findEnd overscan viewportBottom last (S i) rest
  end.

Record Range : Type := mkRange { range_start : Z; range_end : Z }.

(** [container] is [containerRef.current]: [None] before the element is
    mounted, [Some rectTop] with [getBoundingClientRect().top] after;
    [innerHeight] is [window.innerHeight]. *)
Definition visibleRange (container : option Z) (innerHeight overscan : Z)
    (positions : list Position) : Range :=
  let count := Z.of_nat (length positions) in
  if count =? 0 then mkRange 0 0
  else
    match container with
    | None => mkRange 0 (Z.min 20 (count - 1))
    | Some rectTop =>
        let viewportTop := Z.max 0 (- rectTop) in
        let viewportBottom := viewportTop + innerHeight in
        let start := findStart overscan viewportTop 0 positions in
        let end_ := findEnd overscan viewportBottom (count - 1)
                      (Z.to_nat start) (drop (Z.to_nat start) positions) in
        mkRange start end_
    end.

(** [flattenedData.slice(start, end + 1)] *)
Definition slice {A} (start end1 : Z) (l : list A) : list A :=
  take (Z.to_nat (end1 - start)) (drop (Z.to_nat start) l).

(** ** Engine state and props *)

Inductive DropPosition : Type := before | after | inside.

Record DragState : Type := mkDragState {
  dragging : bool;
  dragNode : option FlattenedRow;
  dropPosition : option DropPosition;
  dropNode : option FlattenedRow
}.

(** The object every terminal drag handler stores. *)
Definition idleDrag : DragState :=
  {| dragging := false; dragNode := None; dropPosition := None; dropNode := None |}.

(** Props of [VirtualTree].  [onNodeExpand] and [onDrop] say whether the
    caller passed the callback. *)
Record Props : Type := mkProps {
  data : list TreeNode;
  itemMinHeight : Z;
  overscan : Z;
  draggable : bool;
  onNodeExpand : bool;
  onDrop : bool
}.

(** The hooks' state.  [nodeHeightsId] stands for the identity of the
    [nodeHeights] object: every [setNodeHeights(prev => ({...prev, ...}))]
    stores a fresh object, and the [positions] memo is recomputed exactly
    when that identity (or that of its other dependencies) changes. *)
Record EngineState : Type := mkEngineState {
  expandedKeys : gset (option string);
  nodeHeights : gmap string Z;
  nodeHeightsId : nat;
  heightCacheRef : gmap string Z;
  dragState : DragState
}.

Inductive Notification : Type :=
  | NodeExpand (k : string) (nowExpanded : bool)
  | DropIntent (dragNode dropNode : FlattenedRow) (position : DropPosition).

Definition initialState : EngineState :=
  {| expandedKeys := ∅; nodeHeights := ∅; nodeHeightsId := 0;
     heightCacheRef := ∅; dragState := idleDrag |}.

Definition setExpandedKeys (E : gset (option string)) (s : EngineState) : EngineState :=
  {| expandedKeys := E; nodeHeights := nodeHeights s; nodeHeightsId := nodeHeightsId s;
     heightCacheRef := heightCacheRef s; dragState := dragState s |}.

Definition setDragState (d : DragState) (s : EngineState) : EngineState :=
  {| expandedKeys := expandedKeys s; nodeHeights := nodeHeights s;
     nodeHeightsId := nodeHeightsId s; heightCacheRef := heightCacheRef s;
     dragState := d |}.

(** The derived values of a render. *)
Definition flattenedData (p : Props) (s : EngineState) : list FlattenedRow :=
  flattenTree (expandedKeys s) (data p) 0 None.

Definition positions (p : Props) (s : EngineState) : list Position :=
  fst (layout (nodeHeights s) (itemMinHeight p) (flattenedData p s)).

Definition totalHeight (p : Props) (s : EngineState) : JSValue :=
  snd (layout (nodeHeights s) (itemMinHeight p) (flattenedData p s)).

Definition visibleNodes (p : Props) (s : EngineState) (container : option Z)
    (innerHeight : Z) : list FlattenedRow :=
  let r := visibleRange container innerHeight (overscan p) (positions p s) in
  slice (range_start r) (range_end r + 1) (flattenedData p s).

(** ** Engine operations (index.jsx) *)

Definition expandAll (p : Props) (s : EngineState) : EngineState :=
  setExpandedKeys (list_to_set (getAllKeys (data p))) s.

Definition collapseAll (s : EngineState) : EngineState :=
  setExpandedKeys ∅ s.

Definition toggleExpand (p : Props) (k : string) (s : EngineState)
    : EngineState * list Notification :=
  let newSet :=
    if bool_decide (Some k ∈ expandedKeys s) then expandedKeys s ∖ {[Some k]}
    else expandedKeys s ∪ {[Some k]} in
  (setExpandedKeys newSet s,
   if onNodeExpand p then [NodeExpand k (negb (bool_decide (Some k ∈ expandedKeys s)))]
   else []).

(** [heightCacheRef.current[key] !== height]: only the number [height]
    itself is equal to it; [undefined] and an inherited member differ from
    every number.  Then [heightCacheRef.current[key] = height] and
    [setNodeHeights(prev => ({...prev, [key]: height}))]. *)
Definition updateNodeHeight (k : string) (h : Z) (s : EngineState) : EngineState :=
  if bool_decide (getProp (heightCacheRef s) k = Some (Num h)) then s
  else
    {| expandedKeys := expandedKeys s;
       nodeHeights := spreadWith k h (nodeHeights s);
       nodeHeightsId := S (nodeHeightsId s);
       heightCacheRef := assignProp k h (heightCacheRef s);
       dragState := dragState s |}.

Definition handleDragStart (p : Props) (node : FlattenedRow) (s : EngineState) : EngineState :=
  if negb (draggable p) then s
  else setDragState {| dragging := true; dragNode := Some node;
                       dropPosition := None; dropNode := None |} s.

Definition handleDragOver (p : Props) (node : FlattenedRow) (position : DropPosition)
    (s : EngineState) : EngineState :=
  if negb (draggable p) || negb (dragging (dragState s)) then s
  else setDragState {| dragging := dragging (dragState s);
                       dragNode := dragNode (dragState s);
                       dropPosition := Some position;
                       dropNode := Some node |} s.

Definition handleDragLeave (p : Props) (s : EngineState) : EngineState :=
  if negb (draggable p) then s
  else setDragState {| dragging := dragging (dragState s);
                       dragNode := dragNode (dragState s);
                       dropPosition := None;
                       dropNode := None |} s.

Definition handleDrop (p : Props) (target : FlattenedRow) (position : DropPosition)
    (s : EngineState) : EngineState * list Notification :=
  if negb (draggable p) then (s, [])
  else
    match dragNode (dragState s) with
    | None => (s, [])
    | Some dragged =>
        if String.eqb (row_key dragged) (row_key target) then
          (setDragState idleDrag s, [])
        else
          (setDragState idleDrag s,
           if onDrop p then [DropIntent dragged target position] else [])
    end.

Definition handleDragEnd (s : EngineState) : EngineState :=
  setDragState idleDrag s.

(** ** Row renderer (TreeNode.jsx) *)

Module Renderer.

(** The [if]/[else if]/[else] of [handleDragOver]: [offsetY < height * 0.25],
    then [offsetY > height * 0.75]. *)
Definition classify (offsetY rectHeight : Q) : DropPosition :=
  if Qlt_le_dec offsetY (rectHeight * (1 # 4)) then before
  else if Qlt_le_dec (rectHeight * (3 # 4)) offsetY then after
  else inside.

Definition handleExpandClick (p : Props) (node : FlattenedRow) (s : EngineState)
    : EngineState * list Notification :=
  if hasChildren node then toggleExpand p (row_key node) s else (s, []).

(** [clientY] is the pointer's, [rectTop] and [rectHeight] the row's
    bounding rectangle; [onDragOver] is the engine's handler. *)
Definition handleDragOver (p : Props) (node : FlattenedRow) (clientY rectTop rectHeight : Q)
    (s : EngineState) : EngineState :=
  if negb (draggable p) then s
  else handleDragOver p node (classify (clientY - rectTop) rectHeight) s.

(** The [dropPosition] prop the engine passes to the row of [node]. *)
Definition dropPositionProp (node : FlattenedRow) (s : EngineState) : option DropPosition :=
  match dropNode (dragState s) with
  | Some d => if String.eqb (row_key d) (row_key node) then dropPosition (dragState s) else None
  | None => None
  end.

Definition handleDrop (p : Props) (node : FlattenedRow) (s : EngineState)
    : EngineState * list Notification :=
  match dropPositionProp node s with
  | Some position => if draggable p then handleDrop p node position s else (s, [])
  | None => (s, [])
  end.

End Renderer.

(** ** Vocabulary of the specification *)

(** A path addresses a node by the sibling indices from a root down to it.
    [visibleAt E lvl pk nodes path r]: in the forest [nodes] (whose rows sit
    at depth [lvl] under the parent key [pk]) the node at [path] is reached
    by descending only through nodes whose key is in [E], and [r] is the
    row that node must be shown as. *)
Inductive visibleAt (E : gset (option string))
    : nat -> option string -> list TreeNode -> list nat -> FlattenedRow -> Prop :=
  | visible_root lvl pk nodes i n :
      nodes !! i = Some n ->
      visibleAt E lvl pk nodes [i]
        {| row_node := n;
           row_key := effectiveKey pk i n;
           level := lvl;
           parentKey := pk;
           hasChildren := bool_decide (children n <> []);
           isExpanded := bool_decide (Some (effectiveKey pk i n) ∈ E) |}
  | visible_child lvl pk nodes i n path r :
      nodes !! i = Some n ->
      Some (effectiveKey pk i n) ∈ E ->
      visibleAt E (S lvl) (Some (effectiveKey pk i n)) (children n) path r ->
      visibleAt E lvl pk nodes (i :: path) r.

(** Document order of paths: a node before its descendants, the subtree of
    a sibling before the subtrees of the siblings after it. *)
Inductive preorderLt : list nat -> list nat -> Prop :=
  | preorder_prefix i p : preorderLt [] (i :: p)
  | preorder_sibling i j p q : (i < j)%nat -> preorderLt (i :: p) (j :: q)
  | preorder_below i p q : preorderLt p q -> preorderLt (i :: p) (i :: q).

Definition headGe (i : nat) (path : list nat) : Prop :=
  match path with
  | j :: _ => (i <= j)%nat
  | [] => False
  end.

(** What the rows of [nodes] from sibling index [i] on must be: the visible
    nodes whose path starts at an index >= [i], each once, in document order. *)
Definition flattenSpec (E : gset (option string)) (lvl : nat) (pk : option string)
    (nodes : list TreeNode) (i : nat) (rows : list FlattenedRow) : Prop :=
  exists paths : list (list nat),
    Forall2 (visibleAt E lvl pk nodes) paths rows /\
    StronglySorted preorderLt paths /\
    Forall (headGe i) paths /\
    (forall path r, visibleAt E lvl pk nodes path r -> headGe i path -> path ∈ paths).

(** [inTree n nodes]: [n] is a node of the forest [nodes], at any depth. *)
Inductive inTree (n : TreeNode) : list TreeNode -> Prop :=
  | inTree_here nodes : n ∈ nodes -> inTree n nodes
  | inTree_below nodes m : m ∈ nodes -> inTree n (children m) -> inTree n nodes.

(** The caller's contract on keys: two nodes of the tree with the same key
    are the same node. *)
Definition uniqueKeys (nodes : list TreeNode) : Prop :=
  forall n m, inTree n nodes -> inTree m nodes -> key n = key m -> n = m.

(** The two-root tree of the scenario: A has the child B, C the child D. *)
Definition leafNode (k : string) : TreeNode := mkTreeNode (Some k) k [].
Definition branchNode (k : string) (kids : list TreeNode) : TreeNode :=
  mkTreeNode (Some k) k kids.
Definition scenarioTree : list TreeNode :=
  [branchNode "A" [leafNode "B"]; branchNode "C" [leafNode "D"]].

(** The props of the demo page ([itemMinHeight] 32, [overscan] 5, dragging
    on, both callbacks passed) over the scenario tree. *)
Definition scenarioProps : Props :=
  {| data := scenarioTree; itemMinHeight := 32; overscan := 5;
     draggable := true; onNodeExpand := true; onDrop := true |}.

(** The rows of the scenario: A, C and D. *)
Definition scenarioRows : list FlattenedRow :=
  flattenTree {[Some "C"]} scenarioTree 0 None.

Definition scenarioHeights : gmap string Z :=
  {["A" := 32; "C" := 40; "D" := 32]}.

(** [firstFrom P s ps i]: scanning [ps] from index [s], [i] is the index of
    the first row that satisfies [P]. *)
Definition firstFrom (P : Position -> Prop) (s : nat) (ps : list Position) (i : nat) : Prop :=
  (s <= i)%nat /\
  (exists p, ps !! i = Some p /\ P p) /\
  (forall k q, (s <= k < i)%nat -> ps !! k = Some q -> ~ P q).

(** Eight leaf rows of the minimum height 32 (tops 0, 32, ..., 224). *)
Definition eightLeaves : list TreeNode :=
  leafNode <$> ["0"; "1"; "2"; "3"; "4"; "5"; "6"; "7"]%string.

Definition eightPositions : list Position :=
  (layout ∅ 32 (flattenTree ∅ eightLeaves 0 None)).1.

(** A tree of one leaf, and the rows of B and C in the scenario tree. *)
Definition leafProps : Props :=
  {| data := [leafNode "L"]; itemMinHeight := 32; overscan := 5;
     draggable := true; onNodeExpand := true; onDrop := true |}.

Definition rowB : FlattenedRow := makeRow ∅ 1 (Some "A") 0 (leafNode "B").
Definition rowC : FlattenedRow := makeRow ∅ 0 None 1 (branchNode "C" [leafNode "D"]).

Definition eightProps : Props :=
  {| data := eightLeaves; itemMinHeight := 32; overscan := 5;
     draggable := true; onNodeExpand := true; onDrop := true |}.

(** A root without a key of its own over one keyed leaf. *)
Definition keylessProps : Props :=
  {| data := [mkTreeNode None "root" [leafNode "c"]]; itemMinHeight := 32;
     overscan := 5; draggable := true; onNodeExpand := true; onDrop := true |}.

(** ** The caller's tree surgery (App.jsx)

    [handleDrop] of the demo page works on a deep copy of its tree
    ([JSON.parse(JSON.stringify(treeData))]) that its helpers mutate in
    place; a helper here returns the mutated copy next to its result, and
    [None] stands for the helper's falsy result ([null], [false]) with the
    copy untouched.  The test [nodes[i].children && nodes[i].children.length
    > 0] before each recursive call only skips a call that finds nothing. *)
Module App.

(** [removeNode(nodes, targetKey)], for the children of one node. *)
Fixpoint removeUnder (targetKey : string) (n : TreeNode) {struct n}
    : option (TreeNode * TreeNode) :=
  match n with
  | mkTreeNode k t kids =>
      match
        (fix loop (items : list TreeNode) : option (TreeNode * list TreeNode) :=
           match items with
           | [] => None
           | c :: rest =>
               if bool_decide (key c = Some targetKey) then Some (c, rest)
               else
                 match removeUnder targetKey c with
                 | Some (removed, c') => Some (removed, c' :: rest)
                 | None =>
                     match loop rest with
                     | Some (removed, rest') => Some (removed, c :: rest')
                     | None => None
                     end
                 end
           end) kids
      with
      | Some (removed, kids') => Some (removed, mkTreeNode k t kids')
      | None => None
      end
  end.

(** [removeNode]: the removed node and the forest without it. *)
Fixpoint removeNode (nodes : list TreeNode) (targetKey : string)
    : option (TreeNode * list TreeNode) :=
  match nodes with
  | [] => None
  | c :: rest =>
      if bool_decide (key c = Some targetKey) then Some (c, rest)
      else
        match removeUnder targetKey c with
        | Some (removed, c') => Some (removed, c' :: rest)
        | None =>
            match removeNode rest targetKey with
            | Some (removed, rest') => Some (removed, c :: rest')
            | None => None
            end
        end
  end.

(** The three [splice]/[push] cases of [insertNode] at the matching node
    [c], whose later siblings are [rest]. *)
Definition insertAt (c : TreeNode) (rest : list TreeNode) (nodeToInsert : TreeNode)
    (position : DropPosition) : list TreeNode :=
  match position with
  | before => nodeToInsert :: c :: rest
  | after => c :: nodeToInsert :: rest
  | inside => mkTreeNode (key c) (title c) (children c ++ [nodeToInsert]) :: rest
  end.

(** [insertNode(nodes, targetKey, nodeToInsert, position)], for the children
    of one node. *)
Fixpoint insertUnder (targetKey : string) (nodeToInsert : TreeNode)
    (position : DropPosition) (n : TreeNode) {struct n} : option TreeNode :=
  match n with
  | mkTreeNode k t kids =>
      match
        (fix loop (items : list TreeNode) : option (list TreeNode) :=
           match items with
           | [] => None
           | c :: rest =>
               if bool_decide (key c = Some targetKey)
               then Some (insertAt c rest nodeToInsert position)
               else
                 match insertUnder targetKey nodeToInsert position c with
                 | Some c' => Some (c' :: rest)
                 | None =>
                     match loop rest with
                     | Some rest' => Some (c :: rest')
                     | None => None
                     end
                 end
           end) kids
      with
      | Some kids' => Some (mkTreeNode k t kids')
      | None => None
      end
  end.

Fixpoint insertNode (nodes : list TreeNode) (targetKey : string)
    (nodeToInsert : TreeNode) (position : DropPosition) : option (list TreeNode) :=
  match nodes with
  | [] => None
  | c :: rest =>
      if bool_decide (key c = Some targetKey)
      then Some (insertAt c rest nodeToInsert position)
      else
        match insertUnder targetKey nodeToInsert position c with
        | Some c' => Some (c' :: rest)
        | None =>
            match insertNode rest targetKey nodeToInsert position with
            | Some rest' => Some (c :: rest')
            | None => None
            end
        end
  end.

(** [checkNode(nodes, targetKey)] of [isDescendant]. *)
Fixpoint checkUnder (targetKey : string) (n : TreeNode) {struct n} : bool :=
  match n with
  | mkTreeNode _ _ kids =>
      (fix loop (items : list TreeNode) : bool :=
         match items with
         | [] => false
         | c :: rest =>
             if bool_decide (key c = Some targetKey) then true
             else if checkUnder targetKey c then true
             else loop rest
         end) kids
  end.

Fixpoint checkNode (nodes : list TreeNode) (targetKey : string) : bool :=
  match nodes with
  | [] => false
  | c :: rest =>
      if bool_decide (key c = Some targetKey) then true
      else if checkUnder targetKey c then true
      else checkNode rest targetKey
  end.

(** [findNode(nodes, key)] of [isDescendant]. *)
Fixpoint findUnder (k : string) (n : TreeNode) {struct n} : option TreeNode :=
  match n with
  | mkTreeNode _ _ kids =>
      (fix loop (items : list TreeNode) : option TreeNode :=
         match items with
         | [] => None
         | c :: rest =>
             if bool_decide (key c = Some k) then Some c
             else
               match findUnder k c with
               | Some found => Some found
               | None => loop rest
               end
         end) kids
  end.

Fixpoint findNode (nodes : list TreeNode) (k : string) : option TreeNode :=
  match nodes with
  | [] => None
  | c :: rest =>
      if bool_decide (key c = Some k) then Some c
      else
        match findUnder k c with
        | Some found => Some found
        | None => findNode rest k
        end
  end.

(** [isDescendant(parentKey, childKey)] over the copy [newTreeData]. *)
Definition isDescendant (newTreeData : list TreeNode) (parentKey childKey : string) : bool :=
  match findNode newTreeData parentKey with
  | None => false
  | Some parentNode => checkNode (children parentNode) childKey
  end.

(** The [message] call that ends [handleDrop]. *)
Inductive Message : Type :=
  | warnSelf | warnDescendant | errorRemove | errorInsert | successMoved.

(** [handleDrop({dragNode, dropNode, position})]: the page's tree after the
    call ([setTreeData] is reached on success only) and the message shown. *)
Definition handleDrop (treeData : list TreeNode) (dragNode dropNode : FlattenedRow)
    (position : DropPosition) : list TreeNode * Message :=
  if String.eqb (row_key dragNode) (row_key dropNode) then (treeData, warnSelf)
  else if isDescendant treeData (row_key dragNode) (row_key dropNode)
  then (treeData, warnDescendant)
  else
    match removeNode treeData (row_key dragNode) with
    | None => (treeData, errorRemove)
    | Some (removedNode, without) =>
        match insertNode without (row_key dropNode) removedNode position with
        | None => (treeData, errorInsert)
        | Some newTreeData => (newTreeData, successMoved)
        end
    end.

(** What the page does with a notification of the engine. *)
Definition onNotification (treeData : list TreeNode) (n : Notification)
    : list TreeNode * option Message :=
  match n with
  | NodeExpand _ _ => (treeData, None)
  | DropIntent dragNode dropNode position =>
      let '(t, m) := handleDrop treeData dragNode dropNode position in (t, Some m)
  end.

End App.

(** The key fields of all the nodes of a forest, in document order. *)
Fixpoint keysUnder (n : TreeNode) {struct n} : list (option string) :=
  match n with
  | mkTreeNode k _ kids =>
      k :: (fix loop (items : list TreeNode) : list (option string) :=
              match items with
              | [] => []
              | c :: rest => keysUnder c ++ loop rest
              end) kids
  end.

Fixpoint allKeys (nodes : list TreeNode) : list (option string) :=
  match nodes with
  | [] => []
  | c :: rest => keysUnder c ++ allKeys rest
  end.

(** One call of an operation of the engine, with whatever props the render
    that installed the handler had. *)
Inductive engineStep (s : EngineState) : EngineState -> Prop :=
  | step_toggleExpand p k : engineStep s (toggleExpand p k s).1
  | step_expandAll p : engineStep s (expandAll p s)
  | step_collapseAll : engineStep s (collapseAll s)
  | step_updateNodeHeight k h : engineStep s (updateNodeHeight k h s)
  | step_dragStart p node : engineStep s (handleDragStart p node s)
  | step_dragOver p node position : engineStep s (handleDragOver p node position s)
  | step_dragLeave p : engineStep s (handleDragLeave p s)
  | step_drop p node position : engineStep s (handleDrop p node position s).1
  | step_dragEnd : engineStep s (handleDragEnd s).

(** What the hooks' state keeps: the ref cache holds the entries of the
    state copy of the heights, but for an entry "__proto__", which only the
    state copy can have; a session is dragging exactly when it has a drag
    node, and a drop target comes with its position and only while
    dragging. *)
Definition wellFormed (s : EngineState) : Prop :=
  heightCacheRef s = delete "__proto__"%string (nodeHeights s) /\
  (dragging (dragState s) = true <-> is_Some (dragNode (dragState s))) /\
  (is_Some (dropNode (dragState s)) <-> is_Some (dropPosition (dragState s))) /\
  (is_Some (dropNode (dragState s)) -> dragging (dragState s) = true).

(** A position table whose rows are stacked from 0 without gaps, each
    height that is a number being at least [m]: what the layout produces
    from heights that are 0 or at least [m] and a minimum height of at
    least [m]. *)
Definition stacked (m : Z) (ps : list Position) : Prop :=
  (forall p, ps !! 0%nat = Some p -> top p = Num 0) /\
  (forall i p q, ps !! i = Some p -> ps !! S i = Some q ->
                 top q = jsAdd (top p) (height p)) /\
  Forall (fun p => forall h, height p = Num h -> m <= h) ps.

(** The rows whose height the layout reads as a number: measured, or with a
    key that is not the name of a member of [Object.prototype]. *)
Definition plainKeys (heights : gmap string Z) (rows : list FlattenedRow) : Prop :=
  Forall (fun r => row_key r ∉ prototypeMembers \/ is_Some (heights !! row_key r)) rows.

(** The [map] of [visibleNodes]: each row of the slice with the [top] of
    [positions[visibleRange.start + index]]; [None] stands for an undefined
    position, whose [.top] would throw. *)
Definition visibleNodeTops (p : Props) (s : EngineState) (container : option Z)
    (innerHeight : Z) : list (FlattenedRow * option JSValue) :=
  let r := visibleRange container innerHeight (overscan p) (positions p s) in
  imap (fun index node =>
          (node, top <$> positions p s !! (Z.to_nat (range_start r) + index)%nat))
       (visibleNodes p s container innerHeight).

(** A position moved down by [d]. *)
Definition shiftBy (d : Z) (q : Position) : Position :=
  {| pos_key := pos_key q; top := jsAdd (top q) (Num d); height := height q |}.

(** How a row may follow another in the flattened sequence: at most one
    level deeper, and when deeper, as a child of the row before it, which
    then has children and is expanded. *)
Definition follows (r1 r2 : FlattenedRow) : Prop :=
  (level r2 <= S (level r1))%nat /\
  (level r2 = S (level r1) ->
   parentKey r2 = Some (row_key r1) /\ hasChildren r1 = true /\ isExpanded r1 = true).

(** Rows that start at depth [lvl] under [pk], never go above [lvl], and
    follow one another as [follows] says. *)
Definition nested (lvl : nat) (pk : option string) (rows : list FlattenedRow) : Prop :=
  (forall r, rows !! 0%nat = Some r -> level r = lvl) /\
  Forall (fun r => (lvl <= level r)%nat /\ (level r = lvl -> parentKey r = pk)) rows /\
  (forall i r1 r2, rows !! i = Some r1 -> rows !! S i = Some r2 -> follows r1 r2).

(** ** Induction over trees *)

Section TreeNode_induction.
Variable P : TreeNode -> Prop.
Hypothesis step : forall k t kids, Forall P kids -> P (mkTreeNode k t kids).

Fixpoint TreeNode_ind (n : TreeNode) : P n :=
  match n with
  | mkTreeNode k t kids =>
      step k t kids
        ((fix all (l : list TreeNode) : Forall P l :=
            match l with
            | [] => @Stdlib.Lists.List.Forall_nil _ P
            | c :: rest => @Stdlib.Lists.List.Forall_cons _ P c rest (TreeNode_ind c) (all rest)
            end) kids)
  end.
End TreeNode_induction.

(** ** Flatten *)

Lemma nonEmpty_decide {A} (l : list A) : nonEmpty l = bool_decide (l <> []).
Proof.
  destruct l; [symmetry; apply bool_decide_eq_false_2; auto|].
  symmetry. by apply bool_decide_eq_true_2.
Qed.

Lemma flattenNode_eq E lvl pk i n :
  flattenNode E lvl pk i n =
  makeRow E lvl pk i n ::
    (if hasChildren (makeRow E lvl pk i n) && isExpanded (makeRow E lvl pk i n)
     then flattenTree E (children n) (S lvl) (Some (row_key (makeRow E lvl pk i n)))
     else []).
Proof.
  destruct n as [k t kids]; simpl.
  f_equal. destruct (_ && _); [|done].
  unfold flattenTree. generalize 0%nat.
  induction kids as [|c rest IH]; intros j; simpl; [done|].
  by rewrite IH.
Qed.

Lemma makeRow_eq E lvl pk i n :
  makeRow E lvl pk i n =
  {| row_node := n; row_key := effectiveKey pk i n; level := lvl; parentKey := pk;
     hasChildren := bool_decide (children n <> []);
     isExpanded := bool_decide (Some (effectiveKey pk i n) ∈ E) |}.
Proof. unfold makeRow. by rewrite nonEmpty_decide. Qed.

Lemma visibleAt_nonempty E lvl pk nodes path r :
  visibleAt E lvl pk nodes path r -> nodes <> [] /\ path <> [].
Proof. destruct 1 as [? ? nodes i n Hn|? ? nodes i n ? ? Hn]; by destruct nodes. Qed.

Lemma visibleAt_functional E lvl pk nodes path r1 r2 :
  visibleAt E lvl pk nodes path r1 -> visibleAt E lvl pk nodes path r2 -> r1 = r2.
Proof.
  intros H1. revert r2.
  induction H1 as [lvl pk nodes i n Hn|lvl pk nodes i n path r Hn HE Hsub IH];
    intros r2 H2; inversion H2; subst; simplify_eq; try done;
    try match goal with
        | H : visibleAt _ _ _ _ [] _ |- _ => by apply visibleAt_nonempty in H as [_ ?]
        end.
  by apply IH.
Qed.

Lemma preorderLt_irrefl p : ~ preorderLt p p.
Proof. induction p as [|i p IH]; inversion 1; subst; [lia|auto]. Qed.

Lemma preorderLt_trans p q r : preorderLt p q -> preorderLt q r -> preorderLt p r.
Proof.
  intros H. revert r.
  induction H as [i p|i j p q Hij|i p q Hpq IH]; intros r Hr; inversion Hr; subst.
  - constructor.
  - constructor.
  - constructor; lia.
  - by constructor.
  - by constructor.
  - constructor 3. by apply IH.
Qed.

Lemma StronglySorted_preorder_NoDup paths : StronglySorted preorderLt paths -> NoDup paths.
Proof.
  induction 1 as [|p ps Hs IH Hall]; constructor; [|done].
  intros Hin. rewrite Forall_forall in Hall.
  by apply (preorderLt_irrefl p), Hall.
Qed.

Lemma visibleAt_head E lvl pk nodes path r :
  visibleAt E lvl pk nodes path r ->
  exists j rest n, path = j :: rest /\ nodes !! j = Some n.
Proof. destruct 1; eauto 6. Qed.

Lemma drop_cons_inv {A} (l : list A) i x rest :
  drop i l = x :: rest -> l !! i = Some x /\ drop (S i) l = rest.
Proof.
  intros H. split.
  - rewrite <- (Nat.add_0_r i), <- lookup_drop. by rewrite H.
  - replace (S i) with (i + 1)%nat by lia. rewrite <- drop_drop. by rewrite H.
Qed.

Lemma flattenFrom_spec E items :
  Forall (fun n => forall lvl pk,
            flattenSpec E lvl pk (children n) 0 (flattenTree E (children n) lvl pk)) items ->
  forall nodes lvl pk i, drop i nodes = items ->
  flattenSpec E lvl pk nodes i (flattenFrom E lvl pk i items).
Proof.
  induction 1 as [|c rest Hc Hrest IH]; intros nodes lvl pk i Hdrop.
  - exists []. simpl. split_and!; try by constructor.
    intros path r Hv Hge.
    apply visibleAt_head in Hv as (j & tl & n & -> & Hj). simpl in Hge.
    apply lookup_lt_Some in Hj.
    assert (length (drop i nodes) = 0%nat) as Hlen by by rewrite Hdrop.
    rewrite length_drop in Hlen. lia.
  - apply drop_cons_inv in Hdrop as [Hi Hdrop].
    destruct (IH nodes lvl pk (S i) Hdrop) as (ps & Hps & Hsorted & Hheads & Hall).
    simpl. rewrite flattenNode_eq, makeRow_eq. simpl.
    destruct (Hc (S lvl) (Some (effectiveKey pk i c))) as (qs & Hqs & Hqsorted & _ & Hqall).
    set (b := bool_decide (children c <> []) && bool_decide (Some (effectiveKey pk i c) ∈ E)).
    exists (([i] : list nat) :: (if b then (cons i) <$> qs else []) ++ ps).
    assert (forall q, q ∈ (if b then (cons i) <$> qs else []) ->
                      exists tl, q = i :: tl /\ tl <> [] /\ b = true) as Hsub.
    { intros q Hq. destruct b; [|by apply elem_of_nil in Hq].
      apply list_elem_of_fmap in Hq as (tl & -> & Htl).
      exists tl. split_and!; try done.
      eapply list_elem_of_lookup in Htl as [m Hm].
      destruct (Forall2_lookup_l _ _ _ _ _ Hqs Hm) as (r' & _ & Hv).
      by apply visibleAt_nonempty in Hv as [_ ?]. }
    split_and!.
    + constructor; [by constructor|].
      apply Forall2_app; [|done].
      subst b. destruct (bool_decide (children c <> [])) eqn:Hkids; simpl; [|constructor].
      destruct (bool_decide (Some (effectiveKey pk i c) ∈ E)) eqn:HE; simpl; [|constructor].
      apply bool_decide_eq_true_1 in HE.
      apply Forall2_fmap_l. eapply Forall2_impl; [exact Hqs|].
      intros q r Hv. by econstructor.
    + constructor.
      * apply StronglySorted_app_2; [| |done].
        -- intros q1 q2 Hq1 Hq2. apply Hsub in Hq1 as (tl & -> & _).
           rewrite Forall_forall in Hheads. apply Hheads in Hq2.
           destruct q2 as [|j q2]; [done|]. simpl in Hq2. constructor. lia.
        -- destruct b; [|constructor].
           eapply (StronglySorted_fmap (cons i)); [|done].
           intros q1 q2 Hlt. by constructor.
      * apply Forall_app. split.
        -- apply Forall_forall. intros q Hq. apply Hsub in Hq as (tl & -> & Htl & _).
           destruct tl; [done|]. constructor 3. constructor.
        -- rewrite Forall_forall in Hheads. apply Forall_forall. intros q Hq.
           apply Hheads in Hq. destruct q as [|j q]; [done|]. simpl in Hq.
           constructor. lia.
    + constructor; [simpl; lia|]. apply Forall_app. split.
      * apply Forall_forall. intros q Hq. apply Hsub in Hq as (tl & -> & _). simpl. lia.
      * eapply Forall_impl; [exact Hheads|]. intros [|j q]; simpl; [done|lia].
    + intros path r Hv Hge.
      destruct path as [|j tl]; [done|]. simpl in Hge.
      destruct (decide (j = i)) as [->|Hne].
      * inversion Hv; subst; simplify_eq; [apply list_elem_of_here|].
        apply list_elem_of_further, elem_of_app. left.
        match goal with
        | H : visibleAt _ _ _ (children _) _ _ |- _ =>
            pose proof (visibleAt_nonempty _ _ _ _ _ _ H) as [Hkids Htl];
            apply Hqall in H; [|destruct tl; [done|simpl; lia]]
        end.
        subst b. rewrite (bool_decide_eq_true_2 _ Hkids). 
        rewrite bool_decide_eq_true_2 by done. simpl.
        apply list_elem_of_fmap. eauto.
      * apply list_elem_of_further, elem_of_app. right.
        apply (Hall _ r Hv). simpl. lia.
Qed.

Lemma flattenTree_children_spec E n lvl pk :
  flattenSpec E lvl pk (children n) 0 (flattenTree E (children n) lvl pk).
Proof.
  revert lvl pk. induction n as [k t kids IH] using TreeNode_ind.
  intros lvl pk. simpl. by apply flattenFrom_spec.
Qed.

Lemma flattenTree_spec E nodes lvl pk :
  flattenSpec E lvl pk nodes 0 (flattenTree E nodes lvl pk).
Proof.
  apply flattenFrom_spec; [|done].
  apply Forall_forall. intros n _ lvl' pk'. apply flattenTree_children_spec.
Qed.

(** C1.  For every tree snapshot [data] and every expansion state [E], the
    rows of [flattenTree] are, in order, the rows of the nodes reachable by
    descending only through expanded nodes: there is a list of paths, in
    strict document (depth-first pre-order) order and hence without
    repetition, that contains every visible path and is matched one to one
    with the rows, each row being the visible node's row with its depth,
    parentKey, hasChildren and isExpanded.  On the tree A[B], C[D] with only
    C expanded the rows are A (depth 0), C (depth 0), D (depth 1). *)
Theorem flattenTree_correct :
  (forall (E : gset (option string)) (data : list TreeNode),
     exists paths : list (list nat),
       Forall2 (visibleAt E 0 None data) paths (flattenTree E data 0 None) /\
       StronglySorted preorderLt paths /\
       NoDup paths /\
       (forall path r, visibleAt E 0 None data path r -> path ∈ paths)) /\
  map (fun r => (row_key r, level r, parentKey r, hasChildren r, isExpanded r))
      (flattenTree {[Some "C"]} scenarioTree 0 None)
  = [("A", 0%nat, None, true, false);
     ("C", 0%nat, None, true, true);
     ("D", 1%nat, Some "C", false, false)].
Proof.
  split; [|by vm_compute].
  intros E data.
  destruct (flattenTree_spec E data 0 None) as (paths & Hrows & Hsorted & _ & Hall).
  exists paths. split_and!; try done.
  - by apply StronglySorted_preorder_NoDup.
  - intros path r Hv. apply (Hall path r Hv).
    apply visibleAt_head in Hv as (j & tl & n & -> & _). simpl. lia.
Qed.

(** *** Keys of rows *)



Lemma effectiveKey_falsy pk i n :
  truthyKey (key n) = false -> effectiveKey pk i n = synthKey pk i.
Proof. unfold effectiveKey. destruct (key n) as [s|]; [|done]. by intros ->. Qed.

Lemma effectiveKey_truthy pk i n :
  truthyKey (key n) = true -> key n = Some (effectiveKey pk i n).
Proof. unfold effectiveKey. destruct (key n) as [s|]; [|done]. by intros ->. Qed.

Lemma visibleAt_row_key E lvl pk nodes path r :
  visibleAt E lvl pk nodes path r ->
  exists i, last path = Some i /\ row_key r = effectiveKey (parentKey r) i (row_node r).
Proof.
  induction 1 as [lvl pk nodes i n Hn|lvl pk nodes i n path r Hn HE Hsub IH].
  - by exists i.
  - destruct IH as (j & Hlast & Hkey). exists j. split; [|done].
    apply visibleAt_nonempty in Hsub as [_ Hpath]. by destruct path.
Qed.



(** Two nodes without a key of their own: the root gets "null-0", its child
    "null-0-0", and expanding "null-0" is what shows the child. *)
Example flattenTree_keyless :
  (fun r => (row_key r, level r, parentKey r)) <$>
    flattenTree {[Some "null-0"]}
      [mkTreeNode None "root" [mkTreeNode (Some "") "child" []]] 0 None
  = [("null-0", 0%nat, None); ("null-0-0", 1%nat, Some "null-0")].
Proof. by vm_compute. Qed.

(** ** Expansion control *)

Lemma getAllKeysNode_eq n :
  getAllKeysNode n = if nonEmpty (children n) then key n :: traverse (children n) else [].
Proof.
  destruct n as [k t kids]; simpl. by destruct (nonEmpty kids).
Qed.

Lemma inTree_nil n : ~ inTree n [].
Proof. inversion 1 as [? Hin|? ? Hin]; by apply elem_of_nil in Hin. Qed.

Lemma inTree_cons n c rest :
  inTree n (c :: rest) <-> n = c \/ inTree n (children c) \/ inTree n rest.
Proof.
  split.
  - inversion 1 as [? Hin|? m Hin Hsub]; subst; apply elem_of_cons in Hin as [->|Hin]; auto.
    + right; right. by constructor.
    + right; right. by econstructor 2.
  - intros [->|[Hsub|Hrest]].
    + constructor. apply list_elem_of_here.
    + econstructor 2; [apply list_elem_of_here|done].
    + inversion Hrest as [? Hin|? m Hin Hsub]; subst.
      * constructor. by apply list_elem_of_further.
      * econstructor 2; [by apply list_elem_of_further|done].
Qed.

Lemma traverse_spec_forest items :
  Forall (fun c => forall k, k ∈ traverse (children c) <->
                     exists m, inTree m (children c) /\ children m <> [] /\ key m = k) items ->
  forall k, k ∈ traverse items <->
            exists m, inTree m items /\ children m <> [] /\ key m = k.
Proof.
  induction 1 as [|c rest Hc Hrest IH]; intros k; simpl.
  - split; [by intros ?%elem_of_nil|]. intros (m & Hm & _). by apply inTree_nil in Hm.
  - rewrite elem_of_app, IH, getAllKeysNode_eq, nonEmpty_decide.
    setoid_rewrite inTree_cons.
    destruct (decide (children c = [])) as [Hnil|Hkids].
    + rewrite bool_decide_eq_false_2 by auto. rewrite Hnil.
      split.
      * intros [?%elem_of_nil|(m & Hm & ?)]; [done|]. exists m. auto.
      * intros (m & [->|[Hm|Hm]] & Hb & Hk); [done|by apply inTree_nil in Hm|].
        right. eauto.
    + rewrite bool_decide_eq_true_2 by done. rewrite elem_of_cons, Hc.
      split.
      * intros [[->|(m & Hm & ?)]|(m & Hm & ?)]; [exists c|exists m|exists m]; auto.
      * intros (m & [->|[Hm|Hm]] & Hb & Hk); [by left; left|left; right|right]; eauto.
Qed.

Lemma getAllKeys_spec nodes k :
  k ∈ getAllKeys nodes <-> exists m, inTree m nodes /\ children m <> [] /\ key m = k.
Proof.
  assert (forall n k', k' ∈ traverse (children n) <->
            exists m, inTree m (children n) /\ children m <> [] /\ key m = k') as Hnode.
  { induction n as [kn t kids IH] using TreeNode_ind. simpl.
    by apply traverse_spec_forest. }
  apply traverse_spec_forest, Forall_forall. intros n _. apply Hnode.
Qed.

(** C5.  After [expandAll] the expansion state is exactly the set of the
    keys of the nodes, at any depth, that have at least one child; when keys
    are unique in the tree it holds the key of no leaf.  After
    [collapseAll] it is empty. *)
Theorem expandAll_collapseAll (p : Props) (s : EngineState) :
  (forall k, k ∈ expandedKeys (expandAll p s) <->
             exists n, inTree n (data p) /\ children n <> [] /\ key n = k) /\
  (uniqueKeys (data p) ->
   forall n, inTree n (data p) -> children n = [] ->
             key n ∉ expandedKeys (expandAll p s)) /\
  expandedKeys (collapseAll s) = ∅.
Proof.
  assert (forall k, k ∈ expandedKeys (expandAll p s) <->
            exists n, inTree n (data p) /\ children n <> [] /\ key n = k) as Hset.
  { intros k. simpl. rewrite elem_of_list_to_set. apply getAllKeys_spec. }
  split_and!; [done| |done].
  intros Huniq n Hn Hleaf Hin.
  apply Hset in Hin as (m & Hm & Hkids & Hkey).
  rewrite (Huniq m n Hm Hn Hkey) in Hkids. done.
Qed.

Lemma inTree_scenarioTree n :
  inTree n scenarioTree ->
  n = branchNode "A" [leafNode "B"] \/ n = leafNode "B" \/
  n = branchNode "C" [leafNode "D"] \/ n = leafNode "D".
Proof.
  unfold scenarioTree. rewrite !inTree_cons. simpl. rewrite !inTree_cons. simpl.
  pose proof (inTree_nil n). tauto.
Qed.

Lemma uniqueKeys_scenarioTree : uniqueKeys scenarioTree.
Proof.
  intros n m Hn Hm.
  apply inTree_scenarioTree in Hn as [-> | [-> | [-> | ->]]];
    apply inTree_scenarioTree in Hm as [-> | [-> | [-> | ->]]]; by simpl.
Qed.

Lemma expandAll_collapseAll_witness :
  Some "B" ∉ expandedKeys (expandAll scenarioProps initialState).
Proof.
  apply (proj1 (proj2 (expandAll_collapseAll scenarioProps initialState))
           uniqueKeys_scenarioTree (leafNode "B")); [|done].
  econstructor 2; [apply list_elem_of_here|]. constructor. apply list_elem_of_here.
Defined.

Lemma visibleAt_inTree E lvl pk nodes path r :
  visibleAt E lvl pk nodes path r ->
  inTree (row_node r) nodes /\
  hasChildren r = bool_decide (children (row_node r) <> []) /\
  isExpanded r = bool_decide (Some (row_key r) ∈ E).
Proof.
  induction 1 as [lvl pk nodes i n Hn|lvl pk nodes i n path r Hn HE Hsub IH]; simpl.
  - split; [|done]. constructor. by eapply list_elem_of_lookup_2.
  - destruct IH as (Hin & Hkids & Hexp). split; [|done].
    econstructor 2; [by eapply list_elem_of_lookup_2|done].
Qed.

(** When every node of the tree has a key of its own, [expandAll] expands
    every row that has children: the whole tree is flattened. *)
Lemma expandAll_expands_rows (p : Props) (s : EngineState) :
  (forall n, inTree n (data p) -> truthyKey (key n) = true) ->
  Forall (fun r => hasChildren r = true -> isExpanded r = true)
         (flattenedData p (expandAll p s)).
Proof.
  intros Hkeys. unfold flattenedData.
  set (E := expandedKeys (expandAll p s)).
  destruct (flattenTree_spec E (data p) 0 None) as (paths & Hrows & _).
  apply Forall_forall. intros r Hr Hkids.
  apply list_elem_of_lookup in Hr as [m Hm].
  destruct (Forall2_lookup_r _ _ _ _ _ Hrows Hm) as (path & _ & Hv).
  destruct (visibleAt_inTree _ _ _ _ _ _ Hv) as (Hin & Hhas & Hexp).
  destruct (visibleAt_row_key _ _ _ _ _ _ Hv) as (i & _ & Hkey).
  rewrite Hexp. apply bool_decide_eq_true_2.
  subst E. simpl. rewrite elem_of_list_to_set. apply getAllKeys_spec.
  exists (row_node r). split_and!; [done| |].
  - rewrite Hhas in Hkids. by apply bool_decide_eq_true_1 in Hkids.
  - rewrite Hkey. by apply effectiveKey_truthy, Hkeys.
Qed.

Lemma expandAll_expands_rows_witness :
  Forall (fun r => hasChildren r = true -> isExpanded r = true)
         (flattenedData scenarioProps (expandAll scenarioProps initialState)).
Proof.
  apply (expandAll_expands_rows scenarioProps initialState).
  intros n Hn. apply inTree_scenarioTree in Hn as [-> | [-> | [-> | ->]]]; by vm_compute.
Defined.

(** [getAllKeys] collects the nodes' own [key] fields, [flattenTree] looks
    up the key it synthesizes for a node without one: after [expandAll] the
    state holds the absent key of the keyless root, not "null-0", and the
    row of that root stays collapsed. *)
Lemma expandAll_keyless_root :
  expandedKeys (expandAll keylessProps initialState) = {[None]} /\
  (fun r => (row_key r, hasChildren r, isExpanded r)) <$>
    flattenedData keylessProps (expandAll keylessProps initialState)
  = [("null-0", true, false)].
Proof. split; by vm_compute. Qed.

(** ** Layout *)

Lemma layoutFrom_fst_keys heights minHeight rows t0 :
  pos_key <$> (layoutFrom heights minHeight t0 rows).1 = row_key <$> rows.
Proof.
  revert t0. induction rows as [|r rows IH]; intros t0; simpl; [done|].
  specialize (IH (jsAdd t0 (rowHeight heights minHeight (row_key r)))).
  destruct (layoutFrom _ _ _ rows) as [ps total]. csimpl in *. by rewrite IH.
Qed.

Lemma layoutFrom_head heights minHeight rows t0 p :
  (layoutFrom heights minHeight t0 rows).1 !! 0%nat = Some p -> top p = t0.
Proof.
  destruct rows as [|r rows]; simpl; [done|].
  destruct (layoutFrom _ _ _ rows) as [ps total]. simpl. by intros [= <-].
Qed.

Lemma layoutFrom_step heights minHeight rows t0 i p q :
  (layoutFrom heights minHeight t0 rows).1 !! i = Some p ->
  (layoutFrom heights minHeight t0 rows).1 !! S i = Some q ->
  top q = jsAdd (top p) (height p).
Proof.
  revert t0 i. induction rows as [|r rows IH]; intros t0 i; simpl; [done|].
  pose proof (layoutFrom_head heights minHeight rows
                (jsAdd t0 (rowHeight heights minHeight (row_key r)))) as Hhead.
  specialize (IH (jsAdd t0 (rowHeight heights minHeight (row_key r)))).
  destruct (layoutFrom _ _ _ rows) as [ps total]. simpl in *.
  destruct i as [|i]; simpl.
  - intros [= <-] Hq. simpl. by apply Hhead.
  - apply IH.
Qed.

Lemma layoutFrom_total heights minHeight rows t0 :
  (layoutFrom heights minHeight t0 rows).2 =
  match last (layoutFrom heights minHeight t0 rows).1 with
  | Some p => jsAdd (top p) (height p)
  | None => t0
  end.
Proof.
  revert t0. induction rows as [|r rows IH]; intros t0; simpl; [done|].
  specialize (IH (jsAdd t0 (rowHeight heights minHeight (row_key r)))).
  destruct (layoutFrom _ _ _ rows) as [ps total]. cbn [fst snd] in *.
  rewrite last_cons. by destruct (last ps).
Qed.

Lemma layoutFrom_height heights minHeight rows t0 i p :
  (layoutFrom heights minHeight t0 rows).1 !! i = Some p ->
  height p = rowHeight heights minHeight (pos_key p).
Proof.
  revert t0 i. induction rows as [|r rows IH]; intros t0 i; simpl; [done|].
  specialize (IH (jsAdd t0 (rowHeight heights minHeight (row_key r)))).
  destruct (layoutFrom _ _ _ rows) as [ps total]. simpl in *.
  destruct i as [|i]; simpl; [by intros [= <-]|apply IH].
Qed.

(** The height of a row that has an own entry, or whose key is not the name
    of a member of [Object.prototype], is a number: the entry when it is not
    0, the minimum height otherwise. *)
Lemma rowHeight_number heights minHeight k :
  k ∉ prototypeMembers \/ is_Some (heights !! k) ->
  rowHeight heights minHeight k =
  Num (match heights !! k with
       | Some h => if h =? 0 then minHeight else h
       | None => minHeight
       end).
Proof.
  intros Hk. unfold rowHeight, getProp.
  destruct (heights !! k) as [h|] eqn:Hh; [by destruct (h =? 0)|].
  destruct Hk as [Hk|[? ?]]; [|done]. by rewrite bool_decide_eq_false_2.
Qed.

(** The total height is what adding the heights of the positions to 0 one
    after the other, in the order of the rows, gives. *)
Lemma totalHeight_sum (heights : gmap string Z) (minHeight : Z) (rows : list FlattenedRow) :
  (layout heights minHeight rows).2 =
  foldl jsAdd (Num 0) (height <$> (layout heights minHeight rows).1).
Proof.
  unfold layout. generalize (Num 0).
  induction rows as [|r rows IH]; intros t0; simpl; [done|].
  specialize (IH (jsAdd t0 (rowHeight heights minHeight (row_key r)))).
  destruct (layoutFrom _ _ _ rows) as [ps total]. by csimpl in *.
Qed.



Lemma jsAdd_not_number_r a : jsAdd a NotNumber = NotNumber.
Proof. by destruct a. Qed.

(** An unmeasured row whose key names a member of Object.prototype: the
    lookup finds the inherited member, so the height of the row is not a
    number, and neither are the top of every row after it and the total
    height. *)
Theorem layout_inherited_member (heights : gmap string Z) (minHeight : Z)
    (rows : list FlattenedRow) (i : nat) (p : Position) :
  (layout heights minHeight rows).1 !! i = Some p ->
  pos_key p ∈ prototypeMembers ->
  heights !! pos_key p = None ->
  height p = NotNumber /\
  (forall j q, (i < j)%nat -> (layout heights minHeight rows).1 !! j = Some q ->
               top q = NotNumber) /\
  (layout heights minHeight rows).2 = NotNumber.
Proof.
  intros Hp Hmember Hnone. unfold layout in *.
  set (ps := (layoutFrom heights minHeight (Num 0) rows).1) in *.
  assert (height p = NotNumber) as Hh.
  { rewrite (layoutFrom_height _ _ _ _ _ _ Hp). unfold rowHeight, getProp.
    by rewrite Hnone, bool_decide_eq_true_2. }
  assert (forall d q, ps !! (i + S d)%nat = Some q -> top q = NotNumber) as Hlater.
  { induction d as [|d IH]; intros q Hq.
    - replace (i + 1)%nat with (S i) in Hq by lia.
      rewrite (layoutFrom_step _ _ _ _ _ _ _ Hp Hq), Hh. apply jsAdd_not_number_r.
    - assert (is_Some (ps !! (i + S d)%nat)) as [q' Hq']
        by (apply lookup_lt_is_Some; apply lookup_lt_Some in Hq; lia).
      replace (i + S (S d))%nat with (S (i + S d)) in Hq by lia.
      by rewrite (layoutFrom_step _ _ _ _ _ _ _ Hq' Hq), (IH q' Hq'). }
  split_and!; [done| |].
  - intros j q Hij Hq. apply (Hlater (j - i - 1)%nat).
    by replace (i + S (j - i - 1))%nat with j by lia.
  - rewrite layoutFrom_total. fold ps.
    apply lookup_lt_Some in Hp as Hlt.
    destruct (last ps) as [l|] eqn:Hlast;
      [|apply last_None in Hlast; rewrite Hlast in Hlt; simpl in Hlt; lia].
    rewrite last_lookup in Hlast.
    destruct (decide (i = pred (length ps))) as [Heq|Hne].
    + rewrite <- Heq, Hp in Hlast. injection Hlast as <-.
      rewrite Hh. apply jsAdd_not_number_r.
    + rewrite (Hlater (pred (length ps) - i - 1)%nat l); [done|].
      by replace (i + S (pred (length ps) - i - 1))%nat with (pred (length ps)) by lia.
Qed.

Lemma layout_inherited_member_witness :
  layout ∅ 32 [makeRow ∅ 0 None 0 (leafNode "constructor");
               makeRow ∅ 0 None 1 (leafNode "B")]
    = ([mkPosition "constructor" 0 NotNumber; mkPosition "B" NotNumber 32], NotNumber) /\
  (layout ∅ 32 [makeRow ∅ 0 None 0 (leafNode "constructor");
                makeRow ∅ 0 None 1 (leafNode "B")]).2 = NotNumber.
Proof.
  split; [by vm_compute|].
  apply (layout_inherited_member ∅ 32
           [makeRow ∅ 0 None 0 (leafNode "constructor");
            makeRow ∅ 0 None 1 (leafNode "B")]
           0 (mkPosition "constructor" 0 NotNumber));
    [by vm_compute|by apply (bool_decide_unpack _); vm_compute|by vm_compute].
Defined.

(** ** Viewport intersection *)

Lemma findStart_none ov vt i ps :
  Forall (fun q => ~ bottomReaches vt q = true) ps -> findStart ov vt i ps = 0.
Proof.
  intros H. revert i. induction H as [|q ps Hq _ IH]; intros i; simpl; [done|].
  destruct (bottomReaches vt q); [done|apply IH].
Qed.

Lemma findStart_found ov vt i pre p post :
  Forall (fun q => ~ bottomReaches vt q = true) pre ->
  bottomReaches vt p = true ->
  findStart ov vt i (pre ++ p :: post) = Z.max 0 (Z.of_nat (i + length pre) - ov).
Proof.
  intros H Hp. revert i. induction H as [|q pre Hq _ IH]; intros i; simpl.
  - rewrite Hp. by rewrite Nat.add_0_r.
  - destruct (bottomReaches vt q); [done|].
    rewrite IH. do 2 f_equal. lia.
Qed.

Lemma findEnd_none ov vb lst i ps :
  Forall (fun q => ~ topExceeds vb q = true) ps -> findEnd ov vb lst i ps = lst.
Proof.
  intros H. revert i. induction H as [|q ps Hq _ IH]; intros i; simpl; [done|].
  destruct (topExceeds vb q); [done|apply IH].
Qed.

Lemma findEnd_found ov vb lst i pre p post :
  Forall (fun q => ~ topExceeds vb q = true) pre ->
  topExceeds vb p = true ->
  findEnd ov vb lst i (pre ++ p :: post) = Z.min lst (Z.of_nat (i + length pre) + ov).
Proof.
  intros H Hp. revert i. induction H as [|q pre Hq _ IH]; intros i; simpl.
  - rewrite Hp. by rewrite Nat.add_0_r.
  - destruct (topExceeds vb q); [done|].
    rewrite IH. do 2 f_equal. lia.
Qed.

(** A first index from [s] splits the rows from [s] on. *)
Lemma firstFrom_split P s ps i :
  firstFrom P s ps i ->
  exists pre p post,
    drop s ps = pre ++ p :: post /\ Forall (fun q => ~ P q) pre /\ P p /\
    (s + length pre)%nat = i.
Proof.
  intros (Hle & (p & Hp & HP) & Hbefore).
  exists (take (i - s) (drop s ps)), p, (drop (S i) ps).
  assert (i < length ps)%nat as Hlt by by eapply lookup_lt_Some.
  split_and!.
  - rewrite <- (take_drop (i - s) (drop s ps)) at 1. f_equal.
    rewrite drop_drop. replace (s + (i - s))%nat with i by lia.
    by apply drop_S.
  - apply Forall_forall. intros q Hq.
    apply list_elem_of_lookup in Hq as [k Hk].
    apply lookup_take_Some in Hk as [Hk Hlt'].
    rewrite lookup_drop in Hk. apply (Hbefore (s + k)%nat q); [lia|done].
  - done.
  - rewrite length_take, length_drop. lia.
Qed.

Lemma no_row_from P s (ps : list Position) :
  (forall k q, (s <= k)%nat -> ps !! k = Some q -> ~ P q) ->
  Forall (fun q => ~ P q) (drop s ps).
Proof.
  intros H. apply Forall_forall. intros q Hq.
  apply list_elem_of_lookup in Hq as [k Hk]. rewrite lookup_drop in Hk.
  apply (H (s + k)%nat q); [lia|done].
Qed.

Lemma visibleRange_measured rectTop innerHeight ov ps :
  ps <> [] ->
  visibleRange (Some rectTop) innerHeight ov ps =
  let start := findStart ov (Z.max 0 (- rectTop)) 0 ps in
  mkRange start
    (findEnd ov (Z.max 0 (- rectTop) + innerHeight) (Z.of_nat (length ps) - 1)
       (Z.to_nat start) (drop (Z.to_nat start) ps)).
Proof. by destruct ps. Qed.

Lemma visibleRange_unmeasured innerHeight ov ps :
  ps <> [] ->
  visibleRange None innerHeight ov ps = mkRange 0 (Z.min 20 (Z.of_nat (length ps) - 1)).
Proof. by destruct ps. Qed.

Lemma positions_length p s : length (positions p s) = length (flattenedData p s).
Proof.
  unfold positions, layout.
  pose proof (layoutFrom_fst_keys (nodeHeights s) (itemMinHeight p) (flattenedData p s) (Num 0)) as Hk.
  apply (f_equal length) in Hk. by rewrite !length_fmap in Hk.
Qed.

Lemma positions_nil_rows p s : positions p s = [] -> flattenedData p s = [].
Proof.
  unfold positions, layout. intros H.
  pose proof (layoutFrom_fst_keys (nodeHeights s) (itemMinHeight p) (flattenedData p s) (Num 0)) as Hk.
  rewrite H in Hk. symmetry in Hk. by apply fmap_nil_inv in Hk.
Qed.

(** C4, as the code has it.  With a measurable container, [start] is the
    index of the first row whose bottom edge is >= viewportTop, minus the
    overscan, clamped at 0; [end] is, scanning from [start], the index of
    the first row whose top exceeds viewportBottom, plus the overscan,
    clamped at the last index, and it is the last index when there is no
    such row.  An empty position table gives the range 0..0 and no rendered
    row.  An unmeasurable container gives the range from index 0 to index
    min(20, count - 1), both included: the first min(21, count) rows are
    rendered. *)
Theorem visibleRange_spec (rectTop innerHeight ov : Z) (ps : list Position) :
  let count := Z.of_nat (length ps) in
  let viewportTop := Z.max 0 (- rectTop) in
  let viewportBottom := viewportTop + innerHeight in
  let r := visibleRange (Some rectTop) innerHeight ov ps in
  (forall i, firstFrom (fun p => bottomReaches viewportTop p = true) 0 ps i ->
             range_start r = Z.max 0 (Z.of_nat i - ov)) /\
  (forall j, firstFrom (fun p => topExceeds viewportBottom p = true)
               (Z.to_nat (range_start r)) ps j ->
             range_end r = Z.min (count - 1) (Z.of_nat j + ov)) /\
  (ps <> [] ->
   (forall k q, (Z.to_nat (range_start r) <= k)%nat -> ps !! k = Some q ->
                ~ topExceeds viewportBottom q = true) ->
   range_end r = count - 1) /\
  (forall container, visibleRange container innerHeight ov [] = mkRange 0 0) /\
  (forall p s container,
     positions p s = [] -> visibleNodes p s container innerHeight = []) /\
  (ps <> [] -> visibleRange None innerHeight ov ps = mkRange 0 (Z.min 20 (count - 1))) /\
  (forall p s,
     positions p s <> [] ->
     length (visibleNodes p s None innerHeight) =
       Z.to_nat (Z.min 21 (Z.of_nat (length (positions p s))))).
Proof.
  intros count viewportTop viewportBottom r. split_and!.
  - intros i Hi.
    assert (ps <> []) as Hne by (destruct Hi as (_ & (p & Hp & _) & _); by destruct ps).
    subst r. rewrite visibleRange_measured by done. simpl.
    apply firstFrom_split in Hi as (pre & p & post & Hsplit & Hpre & Hp & <-).
    rewrite drop_0 in Hsplit. rewrite Hsplit. by apply findStart_found.
  - intros j Hj.
    assert (ps <> []) as Hne by (destruct Hj as (_ & (p & Hp & _) & _); by destruct ps).
    subst r. rewrite visibleRange_measured in * by done. simpl in *.
    apply firstFrom_split in Hj as (pre & p & post & Hsplit & Hpre & Hp & <-).
    rewrite Hsplit. by apply findEnd_found.
  - intros Hne Hnone. subst r. rewrite visibleRange_measured in * by done. simpl in *.
    apply findEnd_none.
    by apply (no_row_from (fun q => topExceeds _ q = true)).
  - by intros [].
  - intros p s container Hps. unfold visibleNodes, slice.
    rewrite (positions_nil_rows _ _ Hps). by rewrite drop_nil, take_nil.
  - apply visibleRange_unmeasured.
  - intros p s Hne. unfold visibleNodes, slice.
    pose proof (positions_length p s) as Hlen.
    rewrite visibleRange_unmeasured by done.
    cbn [range_start range_end]. rewrite drop_0, length_take.
    assert (length (positions p s) <> 0%nat) by (by destruct (positions p s)).
    lia.
Qed.

(** The scan over eight rows of height 32 with viewportTop 100, viewport
    height 50 and overscan 1: the first row ending at or after 100 is row 3,
    the first row from index 2 on starting after 150 is row 5. *)
Lemma visibleRange_spec_witness :
  range_start (visibleRange (Some (-100)) 50 1 eightPositions) = 2 /\
  range_end (visibleRange (Some (-100)) 50 1 eightPositions) = 6.
Proof.
  assert (eightPositions =
    [mkPosition "0" 0 32; mkPosition "1" 32 32; mkPosition "2" 64 32;
     mkPosition "3" 96 32; mkPosition "4" 128 32; mkPosition "5" 160 32;
     mkPosition "6" 192 32; mkPosition "7" 224 32]) as Heq by (by vm_compute).
  destruct (visibleRange_spec (-100) 50 1 eightPositions) as (Hstart & Hend & _).
  assert (range_start (visibleRange (Some (-100)) 50 1 eightPositions) = 2) as Hs.
  { rewrite (Hstart 3%nat); [done|].
    split; [lia|]. split.
    - exists (mkPosition "3" 96 32). by rewrite Heq.
    - intros k q Hk. rewrite Heq.
      destruct k as [|[|[|k]]]; try lia; by intros [= <-]. }
  split; [done|].
  rewrite (Hend 5%nat); [done|].
  rewrite Hs. split; [simpl; lia|]. split.
  - exists (mkPosition "5" 160 32). by rewrite Heq.
  - intros k q Hk. rewrite Heq. simpl in Hk.
    destruct k as [|[|[|[|[|k]]]]]; try lia; by intros [= <-].
Defined.

(** The claim's count of rows for an unmeasurable container (the first
    min(20, count - 1) rows) is one short: for the eight rows of
    [eightLeaves] the range is 0..7 and all eight rows are rendered, where
    min(20, count - 1) is 7. *)
Lemma visibleRange_unmeasured_counterexample :
  length (positions eightProps initialState) = 8%nat /\
  visibleRange None 600 5 (positions eightProps initialState) = mkRange 0 7 /\
  length (visibleNodes eightProps initialState None 600) = 8%nat /\
  Z.min 20 (8 - 1) = 7.
Proof. split_and!; by vm_compute. Qed.

(** *** Bounds and monotonicity of the range *)

Lemma findStart_bounds ov vt i ps :
  0 <= findStart ov vt i ps /\
  (ps <> [] -> 0 <= ov -> findStart ov vt i ps <= Z.of_nat (i + length ps) - 1).
Proof.
  revert i. induction ps as [|p rest IH]; intros i; simpl; [done|].
  destruct (bottomReaches vt p); [lia|].
  destruct (IH (S i)) as [Hlo Hhi]. split; [done|]. intros _ Hov.
  destruct rest as [|q rest]; [simpl; lia|].
  specialize (Hhi ltac:(done) Hov). cbn [length] in *. lia.
Qed.

Lemma findEnd_bounds ov vb lst i ps :
  0 <= ov -> Z.of_nat i <= lst -> Z.of_nat (i + length ps) <= lst + 1 ->
  Z.of_nat i <= findEnd ov vb lst i ps <= lst.
Proof.
  intros Hov. revert i. induction ps as [|p rest IH]; intros i Hi Hlen; simpl; [lia|].
  destruct (topExceeds vb p); [lia|].
  destruct rest as [|q rest]; [simpl; lia|].
  cbn [length] in *. specialize (IH (S i)). lia.
Qed.

(** The range is within the table: 0 <= start <= end <= count - 1 for a
    non-empty table and a non-negative overscan, whatever the container;
    start = end = 0 for an empty one. *)
Lemma visibleRange_bounds (container : option Z) (innerHeight ov : Z) (ps : list Position) :
  0 <= ov ->
  let r := visibleRange container innerHeight ov ps in
  (ps <> [] -> 0 <= range_start r <= range_end r /\
               range_end r <= Z.of_nat (length ps) - 1) /\
  (ps = [] -> range_start r = 0 /\ range_end r = 0).
Proof.
  intros Hov r. split; [|by intros ->].
  intros Hne. subst r. destruct container as [rectTop|].
  - rewrite visibleRange_measured by done. simpl.
    destruct (findStart_bounds ov (Z.max 0 (- rectTop)) 0 ps) as [Hlo Hhi].
    specialize (Hhi Hne Hov). simpl in Hhi.
    set (start := findStart ov (Z.max 0 (- rectTop)) 0 ps) in *.
    pose proof (findEnd_bounds ov (Z.max 0 (- rectTop) + innerHeight)
                  (Z.of_nat (length ps) - 1) (Z.to_nat start)
                  (drop (Z.to_nat start) ps) Hov) as Hend.
    rewrite length_drop in Hend. lia.
  - destruct ps as [|p ps]; [done|]. simpl. lia.
Qed.

Lemma visibleRange_bounds_witness :
  0 <= range_start (visibleRange (Some (-224)) 600 5 eightPositions)
    <= range_end (visibleRange (Some (-224)) 600 5 eightPositions) /\
  range_end (visibleRange (Some (-224)) 600 5 eightPositions)
    <= Z.of_nat (length eightPositions) - 1.
Proof.
  apply (visibleRange_bounds (Some (-224)) 600 5 eightPositions); [lia|done].
Defined.

Lemma findStart_lower ov vt i ps :
  Exists (fun p => bottomReaches vt p = true) ps ->
  Z.max 0 (Z.of_nat i - ov) <= findStart ov vt i ps.
Proof.
  intros H. revert i. induction H as [p rest Hp|p rest _ IH]; intros i; simpl.
  - rewrite Hp. lia.
  - destruct (bottomReaches vt p); [lia|]. specialize (IH (S i)). lia.
Qed.

(** A bottom edge that reaches a viewportTop reaches every smaller one. *)
Lemma bottomReaches_mono vt1 vt2 p :
  vt1 <= vt2 -> bottomReaches vt2 p = true -> bottomReaches vt1 p = true.
Proof.
  unfold bottomReaches, jsGe. intros Hle.
  destruct (jsAdd (top p) (height p)) as [x|]; [|done]. lia.
Qed.

Lemma findStart_monotone ov vt1 vt2 i ps :
  vt1 <= vt2 ->
  Exists (fun p => bottomReaches vt2 p = true) ps ->
  findStart ov vt1 i ps <= findStart ov vt2 i ps.
Proof.
  intros Hle. revert i. induction ps as [|p rest IH]; intros i Hex; simpl; [done|].
  pose proof (bottomReaches_mono vt1 vt2 p Hle) as Hmono.
  destruct (bottomReaches vt1 p) eqn:H1, (bottomReaches vt2 p) eqn:H2.
  - lia.
  - apply Exists_cons in Hex as [?|Hex]; [congruence|].
    pose proof (findStart_lower ov vt2 (S i) rest Hex). lia.
  - by specialize (Hmono eq_refl).
  - apply Exists_cons in Hex as [?|Hex]; [congruence|]. by apply IH.
Qed.

(** While some row still ends at or below the larger viewportTop, scrolling
    further never decreases [start]. *)
Lemma visibleRange_start_monotone (rectTop1 rectTop2 innerHeight ov : Z) (ps : list Position) :
  Z.max 0 (- rectTop1) <= Z.max 0 (- rectTop2) ->
  Exists (fun p => bottomReaches (Z.max 0 (- rectTop2)) p = true) ps ->
  range_start (visibleRange (Some rectTop1) innerHeight ov ps)
  <= range_start (visibleRange (Some rectTop2) innerHeight ov ps).
Proof.
  intros Hle Hex.
  assert (ps <> []) as Hne by (by destruct Hex).
  rewrite !visibleRange_measured by done. simpl. by apply findStart_monotone.
Qed.

Lemma visibleRange_start_monotone_witness :
  range_start (visibleRange (Some (-100)) 600 5 eightPositions)
  <= range_start (visibleRange (Some (-224)) 600 5 eightPositions).
Proof.
  apply (visibleRange_start_monotone (-100) (-224) 600 5 eightPositions); [lia|].
  apply Exists_exists. exists (mkPosition "7" 224 32). split; [|done].
  vm_compute. do 7 apply list_elem_of_further. apply list_elem_of_here.
Defined.

(** C3 at the input where the code leaves the claim.  Eight rows of height
    32 end at 256; with the default overscan 5, [start] is 1 at
    viewportTop 224 (first row reaching it: index 6) and falls back to its
    initial value 0 at viewportTop 1000, where no row's bottom edge reaches
    viewportTop and the first loop never breaks; [end] is then the last
    index, so every row is in the range. *)
Theorem visibleRange_start_past_end :
  eightPositions =
    [mkPosition "0" 0 32; mkPosition "1" 32 32; mkPosition "2" 64 32;
     mkPosition "3" 96 32; mkPosition "4" 128 32; mkPosition "5" 160 32;
     mkPosition "6" 192 32; mkPosition "7" 224 32] /\
  visibleRange (Some (-224)) 600 5 eightPositions = mkRange 1 7 /\
  visibleRange (Some (-1000)) 600 5 eightPositions = mkRange 0 7.
Proof. by vm_compute. Qed.

(** ** Toggling *)

(** C6, as the code has it.  For every key, of a branch or of a leaf,
    [toggleExpand] flips the membership of that key in the expansion state,
    leaves every other key and the rest of the state alone, and calls
    [onNodeExpand] (when the caller passed it) with the key and the new
    flag, true exactly when the key was not expanded before.  The engine
    makes no test on children: the guard is the row renderer's
    [handleExpandClick], which calls [toggleExpand] only for a row with
    children and does nothing for a row without. *)
Theorem toggleExpand_flips (p : Props) (k : string) (s : EngineState) :
  let s' := (toggleExpand p k s).1 in
  (Some k ∈ expandedKeys s' <-> Some k ∉ expandedKeys s) /\
  (forall k', k' <> Some k -> (k' ∈ expandedKeys s' <-> k' ∈ expandedKeys s)) /\
  s' = setExpandedKeys (expandedKeys s') s /\
  (toggleExpand p k s).2 =
    (if onNodeExpand p
     then [NodeExpand k (bool_decide (Some k ∉ expandedKeys s))]
     else []) /\
  (forall row, Renderer.handleExpandClick p row s =
               if hasChildren row then toggleExpand p (row_key row) s else (s, [])).
Proof.
  intros s'. subst s'. unfold toggleExpand. simpl.
  destruct (decide (Some k ∈ expandedKeys s)) as [Hin|Hout].
  - rewrite !(bool_decide_eq_true_2 _ Hin).
    rewrite (bool_decide_eq_false_2 (Some k ∉ expandedKeys s)) by auto.
    split_and!; try done.
    + rewrite elem_of_difference, elem_of_singleton. tauto.
    + intros k' Hk'. rewrite elem_of_difference, elem_of_singleton. tauto.
  - rewrite !(bool_decide_eq_false_2 _ Hout).
    rewrite (bool_decide_eq_true_2 (Some k ∉ expandedKeys s)) by auto.
    split_and!; try done.
    + rewrite elem_of_union, elem_of_singleton. tauto.
    + intros k' Hk'. rewrite elem_of_union, elem_of_singleton. tauto.
Qed.

(** The clause of the claim that fails: [toggleExpand] on the key of a node
    without children does have an effect.  On the tree of the single leaf L
    it adds L to the expansion state, notifies the caller, and the row of L
    is flattened with [isExpanded] true. *)
Lemma toggleExpand_leaf_counterexample :
  children (leafNode "L") = [] /\
  expandedKeys initialState = ∅ /\
  expandedKeys (toggleExpand leafProps "L" initialState).1 = {[Some "L"]} /\
  (toggleExpand leafProps "L" initialState).2 = [NodeExpand "L" true] /\
  isExpanded <$> flattenedData leafProps initialState = [false] /\
  isExpanded <$> flattenedData leafProps (toggleExpand leafProps "L" initialState).1 = [true].
Proof. split_and!; by vm_compute. Qed.

(** ** Height feedback *)

Lemma assignProp_plain k v own :
  k <> "__proto__"%string -> assignProp k v own = <[k := v]> own.
Proof.
  intros Hk. unfold assignProp.
  by rewrite (proj2 (String.eqb_neq k "__proto__") Hk).
Qed.

Lemma getProp_own own k z : own !! k = Some z -> getProp own k = Some (Num z).
Proof. unfold getProp. by intros ->. Qed.

Lemma getProp_number own k z : getProp own k = Some (Num z) <-> own !! k = Some z.
Proof.
  unfold getProp. destruct (own !! k) as [y|]; [split; congruence|].
  by destruct (bool_decide (k ∈ prototypeMembers)).
Qed.

(** The guard of [updateNodeHeight], for every key but "__proto__".  With
    [h] the height already cached for [k] nothing changes: the state, the
    identity of [nodeHeights] (so the positions memo is not recomputed),
    the position table and the total height are what they were.  Otherwise
    [h] is stored for [k] in the cache and in [nodeHeights], which becomes a
    new object, and the position table is the layout over the updated
    heights.  Reporting the same height a second time changes nothing. *)
Theorem updateNodeHeight_guard (p : Props) (k : string) (h : Z) (s : EngineState) :
  k <> "__proto__"%string ->
  (heightCacheRef s !! k = Some h ->
     updateNodeHeight k h s = s /\
     nodeHeightsId (updateNodeHeight k h s) = nodeHeightsId s /\
     positions p (updateNodeHeight k h s) = positions p s /\
     totalHeight p (updateNodeHeight k h s) = totalHeight p s) /\
  (heightCacheRef s !! k <> Some h ->
     heightCacheRef (updateNodeHeight k h s) = <[k := h]> (heightCacheRef s) /\
     nodeHeights (updateNodeHeight k h s) = <[k := h]> (nodeHeights s) /\
     nodeHeightsId (updateNodeHeight k h s) = S (nodeHeightsId s) /\
     expandedKeys (updateNodeHeight k h s) = expandedKeys s /\
     dragState (updateNodeHeight k h s) = dragState s /\
     positions p (updateNodeHeight k h s) =
       (layout (<[k := h]> (nodeHeights s)) (itemMinHeight p) (flattenedData p s)).1) /\
  updateNodeHeight k h (updateNodeHeight k h s) = updateNodeHeight k h s.
Proof.
  intros Hk. split_and!.
  - intros Hsame. unfold updateNodeHeight.
    by rewrite bool_decide_eq_true_2 by by apply getProp_own.
  - intros Hdiff. unfold updateNodeHeight.
    rewrite bool_decide_eq_false_2 by by rewrite getProp_number.
    cbn. by rewrite assignProp_plain.
  - unfold updateNodeHeight at 2 3.
    destruct (decide (getProp (heightCacheRef s) k = Some (Num h))) as [Hsame|Hdiff].
    + rewrite bool_decide_eq_true_2 by done.
      unfold updateNodeHeight. by rewrite bool_decide_eq_true_2.
    + rewrite bool_decide_eq_false_2 by done.
      unfold updateNodeHeight. cbn.
      rewrite bool_decide_eq_true_2; [done|].
      apply getProp_own. rewrite assignProp_plain by done. apply lookup_insert_eq.
Qed.

Lemma updateNodeHeight_guard_witness :
  updateNodeHeight "constructor" 40 (updateNodeHeight "constructor" 40 initialState)
    = updateNodeHeight "constructor" 40 initialState /\
  nodeHeightsId (updateNodeHeight "constructor" 40 initialState) = 1%nat.
Proof.
  split.
  - apply (updateNodeHeight_guard scenarioProps "constructor" 40 initialState).
    done.
  - apply (proj1 (proj2 (proj2 (proj1 (proj2
             (updateNodeHeight_guard scenarioProps "constructor" 40 initialState
                ltac:(done))) ltac:(by vm_compute))))).
Defined.

(** C7 at the input where the code leaves the claim: the height 32 reported
    twice for the key "__proto__", from the initial state.  The assignment
    to the cache stores nothing (the cache stays empty) and the guard reads
    the inherited member, never the height: each report, the second as the
    first, stores a new [nodeHeights] object, so the positions memo is
    computed again although the heights are the same. *)
Theorem updateNodeHeight_proto_key :
  getProp (heightCacheRef initialState) "__proto__" = Some NotNumber /\
  heightCacheRef (updateNodeHeight "__proto__" 32 initialState) = ∅ /\
  nodeHeights (updateNodeHeight "__proto__" 32 initialState) = {["__proto__" := 32]} /\
  nodeHeightsId (updateNodeHeight "__proto__" 32 initialState) = 1%nat /\
  heightCacheRef
    (updateNodeHeight "__proto__" 32 (updateNodeHeight "__proto__" 32 initialState)) = ∅ /\
  nodeHeights
    (updateNodeHeight "__proto__" 32 (updateNodeHeight "__proto__" 32 initialState))
    = {["__proto__" := 32]} /\
  nodeHeightsId
    (updateNodeHeight "__proto__" 32 (updateNodeHeight "__proto__" 32 initialState))
    = 2%nat.
Proof. split_and!; by vm_compute. Qed.

(** ** Drag and drop *)



Lemma classify_before offsetY h :
  (offsetY < h * (1 # 4))%Q -> Renderer.classify offsetY h = before.
Proof. intros H. unfold Renderer.classify. destruct (Qlt_le_dec _ _); [done|lra]. Qed.

Lemma classify_after offsetY h :
  (0 <= h)%Q -> (h * (3 # 4) < offsetY)%Q -> Renderer.classify offsetY h = after.
Proof.
  intros Hh H. unfold Renderer.classify.
  destruct (Qlt_le_dec _ _); [lra|]. destruct (Qlt_le_dec _ _); [done|lra].
Qed.

Lemma classify_inside offsetY h :
  (h * (1 # 4) <= offsetY)%Q -> (offsetY <= h * (3 # 4))%Q ->
  Renderer.classify offsetY h = inside.
Proof.
  intros H1 H2. unfold Renderer.classify.
  destruct (Qlt_le_dec _ _); [lra|]. destruct (Qlt_le_dec _ _); [lra|done].
Qed.

(** C9.  For a hovered row of height [h >= 0] and the pointer at the
    vertical offset [clientY - rectTop] within it, the row renderer passes
    [before] when the offset is below a quarter of [h], [after] when it is
    above three quarters of [h], and [inside] between the two (bounds
    included).  The engine's [handleDragOver] then stores the hovered node
    and that position in the session and nothing else, leaving the drag
    node, the expansion state, the heights and the flattened rows alone; it
    has no effect at all when no drag is in progress or dragging is
    disabled. *)
Theorem handleDragOver_spec (p : Props) (node : FlattenedRow)
    (clientY rectTop h : Q) (s : EngineState) :
  (0 <= h)%Q ->
  let offsetY := (clientY - rectTop)%Q in
  ((offsetY < h * (1 # 4))%Q -> Renderer.classify offsetY h = before) /\
  ((offsetY > h * (3 # 4))%Q -> Renderer.classify offsetY h = after) /\
  ((h * (1 # 4) <= offsetY)%Q -> (offsetY <= h * (3 # 4))%Q ->
     Renderer.classify offsetY h = inside) /\
  (draggable p = true -> dragging (dragState s) = true ->
     Renderer.handleDragOver p node clientY rectTop h s =
       setDragState
         {| dragging := true;
            dragNode := dragNode (dragState s);
            dropPosition := Some (Renderer.classify offsetY h);
            dropNode := Some node |} s) /\
  (dragging (dragState s) = false ->
     Renderer.handleDragOver p node clientY rectTop h s = s /\
     forall position, handleDragOver p node position s = s) /\
  (draggable p = false -> Renderer.handleDragOver p node clientY rectTop h s = s) /\
  flattenedData p (Renderer.handleDragOver p node clientY rectTop h s) = flattenedData p s.
Proof.
  intros Hh offsetY. split_and!.
  - apply classify_before.
  - by apply classify_after.
  - apply classify_inside.
  - intros Hd Hdragging. unfold Renderer.handleDragOver, handleDragOver.
    by rewrite Hd, Hdragging.
  - intros Hidle. unfold Renderer.handleDragOver, handleDragOver. rewrite Hidle.
    split; [|intros position]; by destruct (draggable p).
  - intros Hd. unfold Renderer.handleDragOver. by rewrite Hd.
  - unfold Renderer.handleDragOver, handleDragOver.
    by destruct (draggable p), (dragging (dragState s)).
Qed.

(** A row of height 32 whose top is at 100: the pointer at 105 is in the top
    quarter, at 130 in the bottom quarter, at 116 in the middle half. *)
Lemma handleDragOver_spec_witness :
  Renderer.classify (105 - 100) 32 = before /\
  Renderer.classify (130 - 100) 32 = after /\
  Renderer.classify (116 - 100) 32 = inside /\
  dragState (Renderer.handleDragOver scenarioProps rowC 105 100 32
               (handleDragStart scenarioProps rowB initialState))
    = {| dragging := true; dragNode := Some rowB;
         dropPosition := Some before; dropNode := Some rowC |}.
Proof.
  assert (0 <= 32)%Q as Hh by (by vm_compute).
  split_and!.
  - apply (proj1 (handleDragOver_spec scenarioProps rowC 105 100 32 initialState Hh)).
    by vm_compute.
  - apply (proj1 (proj2 (handleDragOver_spec scenarioProps rowC 130 100 32 initialState Hh))).
    by vm_compute.
  - apply (proj1 (proj2 (proj2
             (handleDragOver_spec scenarioProps rowC 116 100 32 initialState Hh))));
      by vm_compute.
  - rewrite (proj1 (proj2 (proj2 (proj2
               (handleDragOver_spec scenarioProps rowC 105 100 32
                  (handleDragStart scenarioProps rowB initialState) Hh))))
               eq_refl eq_refl).
    by vm_compute.
Defined.

(** ** The caller's tree surgery *)

(** Induction over forests: a property of the empty forest that passes from
    the children of a node and its later siblings to the forest starting at
    that node holds of every forest. *)
Lemma forest_ind (P : list TreeNode -> Prop) :
  P [] ->
  (forall c rest, P (children c) -> P rest -> P (c :: rest)) ->
  forall nodes, P nodes.
Proof.
  intros Hnil Hcons.
  assert (forall n, P (children n)) as Hnode.
  { induction n as [k t kids IH] using TreeNode_ind. simpl.
    induction IH as [|c rest Hc _ IHrest]; [done|]. by apply Hcons. }
  induction nodes as [|c rest IH]; [done|]. by apply Hcons.
Qed.

Lemma keysUnder_eq n : keysUnder n = key n :: allKeys (children n).
Proof. by destruct n. Qed.

(** The inner loop of a helper over the children of a node is the helper
    itself on that list. *)
Ltac inner_loop_is helper :=
  match goal with
  | |- context [?f ?kids] =>
      is_fix f;
      let H := fresh in
      assert (forall l, f l = helper l) as H
        by (let l := fresh in let IH := fresh in
            intros l; induction l as [|? ? IH]; simpl; [done|by rewrite IH]);
      by rewrite H
  end.

Lemma removeUnder_eq t n :
  App.removeUnder t n =
  match App.removeNode (children n) t with
  | Some (removed, kids') => Some (removed, mkTreeNode (key n) (title n) kids')
  | None => None
  end.
Proof. destruct n; simpl. inner_loop_is (fun l => App.removeNode l t). Qed.

Lemma insertUnder_eq t x pos n :
  App.insertUnder t x pos n =
  match App.insertNode (children n) t x pos with
  | Some kids' => Some (mkTreeNode (key n) (title n) kids')
  | None => None
  end.
Proof. destruct n; simpl. inner_loop_is (fun l => App.insertNode l t x pos). Qed.

Lemma checkUnder_eq t n : App.checkUnder t n = App.checkNode (children n) t.
Proof. destruct n; simpl. inner_loop_is (fun l => App.checkNode l t). Qed.

Lemma findUnder_eq t n : App.findUnder t n = App.findNode (children n) t.
Proof. destruct n; simpl. inner_loop_is (fun l => App.findNode l t). Qed.

Lemma checkNode_allKeys nodes t :
  App.checkNode nodes t = true <-> Some t ∈ allKeys nodes.
Proof.
  induction nodes as [|c rest IHc IHrest] using forest_ind; simpl.
  - split; [done|by intros ?%elem_of_nil].
  - rewrite keysUnder_eq, checkUnder_eq. rewrite elem_of_app, elem_of_cons.
    rewrite <- IHc, <- IHrest.
    destruct (decide (key c = Some t)) as [Hk|Hk].
    + rewrite bool_decide_eq_true_2 by done. split; [auto|done].
    + rewrite bool_decide_eq_false_2 by done.
      destruct (App.checkNode (children c) t); [tauto|].
      split; [tauto|]. intros [[?|?]|?]; [by destruct Hk|done|done].
Qed.

Lemma findNode_checkNode nodes t :
  App.findNode nodes t = None <-> App.checkNode nodes t = false.
Proof.
  induction nodes as [|c rest IHc IHrest] using forest_ind; simpl; [done|].
  rewrite findUnder_eq, checkUnder_eq.
  destruct (bool_decide (key c = Some t)); [done|].
  destruct IHc as [H1 H2].
  destruct (App.findNode (children c) t) as [f|], (App.checkNode (children c) t);
    try done; try (by specialize (H1 eq_refl)); by specialize (H2 eq_refl).
Qed.

Lemma findNode_found nodes t n :
  App.findNode nodes t = Some n -> key n = Some t /\ inTree n nodes.
Proof.
  revert n. induction nodes as [|c rest IHc IHrest] using forest_ind; simpl; [done|].
  intros n. rewrite findUnder_eq.
  destruct (decide (key c = Some t)) as [Hk|Hk].
  - rewrite bool_decide_eq_true_2 by done. intros [= <-]. split; [done|].
    apply inTree_cons. by left.
  - rewrite bool_decide_eq_false_2 by done.
    destruct (App.findNode (children c) t) as [f|].
    + intros [= <-]. destruct (IHc f eq_refl) as [? ?]. split; [done|].
      apply inTree_cons. auto.
    + intros Hrest. destruct (IHrest n Hrest) as [? ?]. split; [done|].
      apply inTree_cons. auto.
Qed.

Lemma allKeys_app l1 l2 : allKeys (l1 ++ l2) = allKeys l1 ++ allKeys l2.
Proof. induction l1 as [|c l1 IH]; simpl; [done|]. by rewrite IH, app_assoc. Qed.

Lemma removeNode_None nodes t :
  App.removeNode nodes t = None <-> App.checkNode nodes t = false.
Proof.
  induction nodes as [|c rest IHc IHrest] using forest_ind; simpl; [done|].
  rewrite removeUnder_eq, checkUnder_eq.
  destruct (bool_decide (key c = Some t)); [done|].
  destruct IHc as [H1 H2], IHrest as [H3 H4].
  destruct (App.removeNode (children c) t) as [[r kids']|],
           (App.checkNode (children c) t);
    try done; try (by specialize (H1 eq_refl)); try (by specialize (H2 eq_refl)).
  destruct (App.removeNode rest t) as [[r rest']|], (App.checkNode rest t);
    try done; try (by specialize (H3 eq_refl)); by specialize (H4 eq_refl).
Qed.

Lemma removeNode_Some nodes t r without :
  App.removeNode nodes t = Some (r, without) ->
  App.findNode nodes t = Some r /\
  allKeys nodes ≡ₚ keysUnder r ++ allKeys without.
Proof.
  revert r without.
  induction nodes as [|c rest IHc IHrest] using forest_ind; simpl; [done|].
  intros r without. rewrite removeUnder_eq, findUnder_eq.
  destruct (bool_decide (key c = Some t)); [by intros [= <- <-]|].
  destruct (App.removeNode (children c) t) as [[r1 kids']|] eqn:Hc.
  - intros [= <- <-]. destruct (IHc r1 kids' eq_refl) as [-> Hperm].
    split; [done|]. cbn [allKeys]. rewrite (keysUnder_eq c), (keysUnder_eq (mkTreeNode _ _ _)).
    cbn [key children]. rewrite Hperm, (app_assoc (keysUnder r1)).
    f_equiv. apply Permutation_middle.
  - apply removeNode_None, findNode_checkNode in Hc. rewrite Hc.
    destruct (App.removeNode rest t) as [[r2 rest']|]; [|done].
    intros [= <- <-]. destruct (IHrest r2 rest' eq_refl) as [-> Hperm].
    split; [done|]. cbn [allKeys]. rewrite Hperm, !app_assoc.
    f_equiv. apply Permutation_app_comm.
Qed.

Lemma insertAt_keys c rest x pos :
  allKeys (App.insertAt c rest x pos) ≡ₚ keysUnder x ++ allKeys (c :: rest).
Proof.
  destruct pos; cbn [App.insertAt allKeys].
  - done.
  - rewrite !app_assoc. f_equiv. apply Permutation_app_comm.
  - rewrite (keysUnder_eq c), (keysUnder_eq (mkTreeNode _ _ _)). cbn [key children].
    rewrite allKeys_app. cbn [allKeys]. rewrite app_nil_r.
    rewrite (app_assoc (keysUnder x)). f_equiv.
    rewrite (Permutation_app_comm (keysUnder x)). done.
Qed.

Lemma insertNode_None nodes t x pos :
  App.insertNode nodes t x pos = None <-> App.checkNode nodes t = false.
Proof.
  induction nodes as [|c rest IHc IHrest] using forest_ind; simpl; [done|].
  rewrite insertUnder_eq, checkUnder_eq.
  destruct (bool_decide (key c = Some t)); [done|].
  destruct IHc as [H1 H2], IHrest as [H3 H4].
  destruct (App.insertNode (children c) t x pos) as [kids'|],
           (App.checkNode (children c) t);
    try done; try (by specialize (H1 eq_refl)); try (by specialize (H2 eq_refl)).
  destruct (App.insertNode rest t x pos) as [rest'|], (App.checkNode rest t);
    try done; try (by specialize (H3 eq_refl)); by specialize (H4 eq_refl).
Qed.

Lemma insertNode_Some nodes t x pos nodes' :
  App.insertNode nodes t x pos = Some nodes' ->
  allKeys nodes' ≡ₚ keysUnder x ++ allKeys nodes.
Proof.
  revert nodes'.
  induction nodes as [|c rest IHc IHrest] using forest_ind; simpl; [done|].
  intros nodes'. rewrite insertUnder_eq.
  destruct (bool_decide (key c = Some t)).
  { intros [= <-]. apply insertAt_keys. }
  destruct (App.insertNode (children c) t x pos) as [kids'|].
  - intros [= <-]. cbn [allKeys].
    rewrite (keysUnder_eq c), (keysUnder_eq (mkTreeNode _ _ _)). cbn [key children].
    rewrite (IHc kids' eq_refl), (app_assoc (keysUnder x)).
    f_equiv. apply Permutation_middle.
  - destruct (App.insertNode rest t x pos) as [rest'|]; [|done].
    intros [= <-]. cbn [allKeys]. rewrite (IHrest rest' eq_refl), !app_assoc.
    f_equiv. apply Permutation_app_comm.
Qed.

Lemma inTree_allKeys n nodes : inTree n nodes -> key n ∈ allKeys nodes.
Proof.
  induction nodes as [|c rest IHc IHrest] using forest_ind.
  - by intros ?%inTree_nil.
  - rewrite inTree_cons. simpl. rewrite keysUnder_eq, elem_of_app, elem_of_cons.
    intros [->|[?|?]]; auto.
Qed.

(** [removeNode] fails exactly when no node of the forest has the key.
    Otherwise the node it returns is the first one in document order with
    that key (the node [findNode] finds), and the keys of the forest are
    those of the removed subtree together with those of what is left; when
    keys are unique the key is gone from what is left. *)
Theorem removeNode_spec (nodes : list TreeNode) (t : string) :
  match App.removeNode nodes t with
  | None => Some t ∉ allKeys nodes
  | Some (removed, without) =>
      key removed = Some t /\
      App.findNode nodes t = Some removed /\
      inTree removed nodes /\
      (allKeys nodes ≡ₚ keysUnder removed ++ allKeys without) /\
      (NoDup (allKeys nodes) -> (Some t ∉ allKeys without) /\ NoDup (allKeys without))
  end.
Proof.
  destruct (App.removeNode nodes t) as [[r without]|] eqn:Hrm.
  - apply removeNode_Some in Hrm as [Hfind Hperm].
    destruct (findNode_found _ _ _ Hfind) as [Hkey Hin].
    split_and!; try done.
    intros Hnodup. rewrite Hperm, keysUnder_eq, Hkey in Hnodup.
    apply NoDup_app in Hnodup as (Hr & Hdisj & Hwithout).
    split; [|done]. apply Hdisj, list_elem_of_here.
  - apply removeNode_None in Hrm. rewrite <- checkNode_allKeys. by rewrite Hrm.
Qed.


(** [insertNode] fails exactly when no node of the forest has the target
    key; otherwise the keys of the result are those of the forest together
    with those of the inserted subtree. *)
Theorem insertNode_spec (nodes : list TreeNode) (t : string) (x : TreeNode)
    (pos : DropPosition) :
  match App.insertNode nodes t x pos with
  | None => Some t ∉ allKeys nodes
  | Some nodes' =>
      (Some t ∈ allKeys nodes) /\ (allKeys nodes' ≡ₚ keysUnder x ++ allKeys nodes)
  end.
Proof.
  destruct (App.insertNode nodes t x pos) as [nodes'|] eqn:Hins.
  - split; [|by apply insertNode_Some in Hins].
    apply checkNode_allKeys. destruct (App.checkNode nodes t) eqn:Hc; [done|].
    apply (insertNode_None nodes t x pos) in Hc. congruence.
  - apply insertNode_None in Hins. rewrite <- checkNode_allKeys. by rewrite Hins.
Qed.


(** Where [insertNode] puts the node: at the first node with the target key
    in document order.  When that node [c] is in the list itself, after
    siblings [pre] whose subtrees do not hold the key, the node goes right
    before [c], right after [c], or to the end of the children of [c];
    when the key is first found under [c], the list changes inside [c]
    only. *)
Theorem insertNode_position (pre post : list TreeNode) (c x : TreeNode)
    (t : string) (pos : DropPosition) :
  App.checkNode pre t = false ->
  (key c = Some t ->
   App.insertNode (pre ++ c :: post) t x pos =
     Some (pre ++ match pos with
                  | before => x :: c :: post
                  | after => c :: x :: post
                  | inside => mkTreeNode (key c) (title c) (children c ++ [x]) :: post
                  end)) /\
  (key c <> Some t ->
   forall kids', App.insertNode (children c) t x pos = Some kids' ->
   App.insertNode (pre ++ c :: post) t x pos =
     Some (pre ++ mkTreeNode (key c) (title c) kids' :: post)).
Proof.
  intros Hpre.
  assert (forall tail res,
            App.insertNode tail t x pos = Some res ->
            App.insertNode (pre ++ tail) t x pos = Some (pre ++ res)) as Hskip.
  { intros tail res Htail. induction pre as [|p pre IH]; [done|].
    simpl in Hpre |- *. rewrite checkUnder_eq in Hpre. rewrite insertUnder_eq.
    destruct (bool_decide (key p = Some t)); [done|].
    destruct (App.checkNode (children p) t) eqn:Hp; [done|].
    apply (insertNode_None _ t x pos) in Hp. rewrite Hp.
    by rewrite (IH Hpre). }
  split.
  - intros Hc. apply Hskip. simpl. rewrite bool_decide_eq_true_2 by done.
    by destruct pos.
  - intros Hc kids' Hkids. apply Hskip. simpl.
    rewrite bool_decide_eq_false_2 by done. by rewrite insertUnder_eq, Hkids.
Qed.

Lemma insertNode_position_witness :
  App.insertNode scenarioTree "C" (leafNode "X") before =
    Some [branchNode "A" [leafNode "B"]; leafNode "X"; branchNode "C" [leafNode "D"]] /\
  App.insertNode scenarioTree "D" (leafNode "X") after =
    Some [branchNode "A" [leafNode "B"];
          mkTreeNode (Some "C") "C" [leafNode "D"; leafNode "X"]].
Proof.
  split.
  - apply (proj1 (insertNode_position [branchNode "A" [leafNode "B"]] []
                    (branchNode "C" [leafNode "D"]) (leafNode "X") "C" before
                    eq_refl)).
    done.
  - apply (proj2 (insertNode_position [branchNode "A" [leafNode "B"]] []
                    (branchNode "C" [leafNode "D"]) (leafNode "X") "D" after
                    eq_refl)); [done|].
    apply (proj1 (insertNode_position [] [] (leafNode "D") (leafNode "X") "D" after
                    eq_refl)).
    done.
Defined.

(** The page's [handleDrop] never loses or duplicates a node: after the
    call the tree has the keys it had, and it is the very same tree unless
    the message is the success message. *)
Theorem App_handleDrop_preserves (treeData : list TreeNode)
    (dragNode dropNode : FlattenedRow) (position : DropPosition) :
  (allKeys (App.handleDrop treeData dragNode dropNode position).1 ≡ₚ allKeys treeData) /\
  length (allKeys (App.handleDrop treeData dragNode dropNode position).1)
    = length (allKeys treeData) /\
  ((App.handleDrop treeData dragNode dropNode position).2 <> App.successMoved ->
   (App.handleDrop treeData dragNode dropNode position).1 = treeData).
Proof.
  assert (allKeys (App.handleDrop treeData dragNode dropNode position).1
            ≡ₚ allKeys treeData) as Hperm.
  { unfold App.handleDrop.
    destruct (String.eqb _ _); [done|]. destruct (App.isDescendant _ _ _); [done|].
    destruct (App.removeNode _ _) as [[r without]|] eqn:Hrm; [|done].
    destruct (App.insertNode _ _ _ _) as [new|] eqn:Hins; [|done].
    simpl. apply removeNode_Some in Hrm as [_ Hrm]. apply insertNode_Some in Hins.
    by rewrite Hins, Hrm. }
  split_and!; [done|by rewrite Hperm|].
  unfold App.handleDrop.
  destruct (String.eqb _ _); [done|]. destruct (App.isDescendant _ _ _); [done|].
  destruct (App.removeNode _ _) as [[r without]|]; [|done].
  by destruct (App.insertNode _ _ _ _).
Qed.

(** Dropping C on its own child D is refused and leaves the tree alone. *)
Lemma App_handleDrop_preserves_witness :
  (App.handleDrop scenarioTree rowC (makeRow ∅ 1 (Some "C") 0 (leafNode "D")) inside).1
    = scenarioTree.
Proof.
  apply (proj2 (proj2 (App_handleDrop_preserves scenarioTree rowC
                         (makeRow ∅ 1 (Some "C") 0 (leafNode "D")) inside))).
  by vm_compute.
Defined.

(** Once the first node with the drag key is taken out, the drop key is
    still in the tree exactly when it was there, provided it is neither the
    drag key nor a key under that node. *)
Lemma drop_target_survives treeData dragKey dropKey r without :
  App.removeNode treeData dragKey = Some (r, without) ->
  dragKey <> dropKey ->
  App.isDescendant treeData dragKey dropKey = false ->
  Some dragKey ∈ allKeys treeData /\
  (Some dropKey ∈ allKeys without <-> Some dropKey ∈ allKeys treeData).
Proof.
  intros Hrm Hne Hdesc.
  apply removeNode_Some in Hrm as [Hfind Hperm].
  destruct (findNode_found _ _ _ Hfind) as [Hkey Hin].
  split; [rewrite <- Hkey; by apply inTree_allKeys|].
  assert (Some dropKey ∉ keysUnder r) as Hnotunder.
  { rewrite keysUnder_eq, elem_of_cons, Hkey. intros [[= ?]|Hsub]; [done|].
    apply checkNode_allKeys in Hsub.
    unfold App.isDescendant in Hdesc. rewrite Hfind in Hdesc. congruence. }
  rewrite Hperm, elem_of_app. tauto.
Qed.

Lemma App_handleDrop_errors (treeData : list TreeNode)
    (dragNode dropNode : FlattenedRow) (position : DropPosition) :
  ((App.handleDrop treeData dragNode dropNode position).2 = App.errorRemove ->
     Some (row_key dragNode) ∉ allKeys treeData) /\
  ((App.handleDrop treeData dragNode dropNode position).2 = App.errorInsert ->
     Some (row_key dropNode) ∉ allKeys treeData).
Proof.
  unfold App.handleDrop.
  destruct (String.eqb_spec (row_key dragNode) (row_key dropNode)) as [Heq|Hne]; [done|].
  destruct (App.isDescendant treeData _ _) eqn:Hdesc; [done|].
  destruct (App.removeNode _ _) as [[r without]|] eqn:Hrm; simpl.
  - destruct (drop_target_survives _ _ _ _ _ Hrm Hne Hdesc) as [_ Hiff].
    destruct (App.insertNode _ _ _ _) as [new|] eqn:Hins; simpl; [done|].
    split; [done|]. intros _. rewrite <- Hiff, <- checkNode_allKeys.
    apply insertNode_None in Hins. by rewrite Hins.
  - split; [|done]. intros _. rewrite <- checkNode_allKeys.
    apply removeNode_None in Hrm. by rewrite Hrm.
Qed.

(** When the page's [handleDrop] moves the node: exactly when the two keys
    differ, both are keys of the tree, and the drop key is not under the
    first node with the drag key.  The insertion error is shown only for a
    drop key that is not in the tree. *)
Theorem App_handleDrop_outcome (treeData : list TreeNode)
    (dragNode dropNode : FlattenedRow) (position : DropPosition) :
  ((App.handleDrop treeData dragNode dropNode position).2 = App.successMoved <->
     row_key dragNode <> row_key dropNode /\
     Some (row_key dragNode) ∈ allKeys treeData /\
     Some (row_key dropNode) ∈ allKeys treeData /\
     App.isDescendant treeData (row_key dragNode) (row_key dropNode) = false) /\
  ((App.handleDrop treeData dragNode dropNode position).2 = App.errorRemove ->
     Some (row_key dragNode) ∉ allKeys treeData) /\
  ((App.handleDrop treeData dragNode dropNode position).2 = App.errorInsert ->
     Some (row_key dropNode) ∉ allKeys treeData).
Proof.
  split; [|apply App_handleDrop_errors].
  unfold App.handleDrop.
  destruct (String.eqb_spec (row_key dragNode) (row_key dropNode)) as [Heq|Hne].
  { split; [done|]. by intros [? _]. }
  destruct (App.isDescendant treeData _ _) eqn:Hdesc.
  { split; [done|]. by intros (_ & _ & _ & ?). }
  destruct (App.removeNode _ _) as [[r without]|] eqn:Hrm; simpl.
  - destruct (drop_target_survives _ _ _ _ _ Hrm Hne Hdesc) as [Hdrag Hiff].
    destruct (App.insertNode _ _ _ _) as [new|] eqn:Hins; simpl.
    + split; [|done]. intros _. split_and!; try done.
      apply Hiff, checkNode_allKeys.
      destruct (App.checkNode without (row_key dropNode)) eqn:Hc; [done|].
      apply (insertNode_None _ _ r position) in Hc. congruence.
    + split; [done|]. intros (_ & _ & Hdrop & _).
      apply Hiff, checkNode_allKeys in Hdrop.
      apply insertNode_None in Hins. congruence.
  - split; [done|]. intros (_ & Hdrag & _).
    apply checkNode_allKeys in Hdrag. apply removeNode_None in Hrm. congruence.
Qed.

Lemma App_handleDrop_outcome_witness :
  (App.handleDrop scenarioTree rowB rowC before).2 = App.successMoved.
Proof.
  apply (proj1 (App_handleDrop_outcome scenarioTree rowB rowC before)).
  split_and!; try (by vm_compute).
  - apply checkNode_allKeys. by vm_compute.
  - apply checkNode_allKeys. by vm_compute.
Defined.

(** ** The engine and the page together *)

Lemma flattenTree_row_visible E data r :
  r ∈ flattenTree E data 0 None -> exists path, visibleAt E 0 None data path r.
Proof.
  intros Hr. destruct (flattenTree_spec E data 0 None) as (paths & Hrows & _).
  apply list_elem_of_lookup in Hr as [m Hm].
  destruct (Forall2_lookup_r _ _ _ _ _ Hrows Hm) as (path & _ & Hv). eauto.
Qed.

Lemma flattenTree_row_key_in E data r :
  Forall (fun k => truthyKey k = true) (allKeys data) ->
  r ∈ flattenTree E data 0 None -> Some (row_key r) ∈ allKeys data.
Proof.
  intros Htruthy Hr. apply flattenTree_row_visible in Hr as [path Hv].
  destruct (visibleAt_inTree _ _ _ _ _ _ Hv) as (Hin & _).
  destruct (visibleAt_row_key _ _ _ _ _ _ Hv) as (i & _ & Hkey).
  apply inTree_allKeys in Hin. rewrite Forall_forall in Htruthy.
  rewrite Hkey, <- effectiveKey_truthy; [done|]. by apply Htruthy.
Qed.

(** Every notification the engine's [handleDrop] emits is a drop intent of
    the recorded drag node on a row with another key, so the page never
    answers it with its self-drop warning. *)
Theorem engine_drop_never_self (p : Props) (s : EngineState) (target : FlattenedRow)
    (position : DropPosition) (treeData : list TreeNode) (n : Notification) :
  n ∈ (handleDrop p target position s).2 ->
  exists dragged,
    n = DropIntent dragged target position /\
    dragNode (dragState s) = Some dragged /\
    row_key dragged <> row_key target /\
    (App.onNotification treeData n).2 <> Some App.warnSelf.
Proof.
  unfold handleDrop. destruct (draggable p); simpl; [|by intros ?%elem_of_nil].
  destruct (dragNode (dragState s)) as [d|]; [|by intros ?%elem_of_nil].
  destruct (String.eqb_spec (row_key d) (row_key target)) as [Heq|Hne];
    [by intros ?%elem_of_nil|].
  destruct (onDrop p); [|by intros ?%elem_of_nil].
  intros ->%list_elem_of_singleton. exists d. split_and!; try done.
  simpl. unfold App.handleDrop.
  apply String.eqb_neq in Hne. rewrite Hne.
  destruct (App.isDescendant _ _ _); [done|].
  destruct (App.removeNode _ _) as [[r without]|]; [|done].
  by destruct (App.insertNode _ _ _ _).
Qed.

Lemma engine_drop_never_self_witness :
  exists dragged,
    DropIntent rowB rowC before = DropIntent dragged rowC before /\
    dragNode (dragState (handleDragStart scenarioProps rowB initialState)) = Some dragged /\
    row_key dragged <> row_key rowC /\
    (App.onNotification scenarioTree (DropIntent rowB rowC before)).2 <> Some App.warnSelf.
Proof.
  apply (engine_drop_never_self scenarioProps
           (handleDragStart scenarioProps rowB initialState) rowC before scenarioTree).
  vm_compute. apply list_elem_of_here.
Defined.

(** A drop between two rows the engine shows for the page's tree, all of
    whose nodes have a key, is never answered with an error: the page moves
    the node, or refuses a drop on the node itself or under it. *)
Theorem shown_rows_drop_no_error (E : gset (option string)) (treeData : list TreeNode)
    (dragNode dropNode : FlattenedRow) (position : DropPosition) :
  Forall (fun k => truthyKey k = true) (allKeys treeData) ->
  dragNode ∈ flattenTree E treeData 0 None ->
  dropNode ∈ flattenTree E treeData 0 None ->
  (App.handleDrop treeData dragNode dropNode position).2 <> App.errorRemove /\
  (App.handleDrop treeData dragNode dropNode position).2 <> App.errorInsert.
Proof.
  intros Htruthy Hdrag Hdrop.
  apply (flattenTree_row_key_in _ _ _ Htruthy) in Hdrag.
  apply (flattenTree_row_key_in _ _ _ Htruthy) in Hdrop.
  destruct (App_handleDrop_errors treeData dragNode dropNode position)
    as (Hrm & Hins).
  split; intros Hm; [by apply Hrm in Hm|by apply Hins in Hm].
Qed.

(** With C expanded, dragging the row of D onto the row of A. *)
Lemma shown_rows_drop_no_error_witness :
  (App.handleDrop scenarioTree (makeRow {[Some "C"]} 1 (Some "C") 0 (leafNode "D"))
     (makeRow {[Some "C"]} 0 None 0 (branchNode "A" [leafNode "B"])) inside).2
    <> App.errorRemove /\
  (App.handleDrop scenarioTree (makeRow {[Some "C"]} 1 (Some "C") 0 (leafNode "D"))
     (makeRow {[Some "C"]} 0 None 0 (branchNode "A" [leafNode "B"])) inside).2
    <> App.errorInsert.
Proof.
  apply (shown_rows_drop_no_error {[Some "C"]} scenarioTree).
  - by repeat constructor.
  - vm_compute. do 2 apply list_elem_of_further. apply list_elem_of_here.
  - vm_compute. apply list_elem_of_here.
Defined.

(** ** More on flattening and expansion *)

Lemma flattenFrom_collapsed lvl pk i items :
  flattenFrom ∅ lvl pk i items = imap (fun j => makeRow ∅ lvl pk (i + j)) items.
Proof.
  revert i. induction items as [|c rest IH]; intros i; [done|].
  cbn [flattenFrom]. rewrite flattenNode_eq, imap_cons, Nat.add_0_r.
  assert (isExpanded (makeRow ∅ lvl pk i c) = false) as ->
    by (apply bool_decide_eq_false_2, not_elem_of_empty).
  rewrite andb_false_r. cbn [app]. f_equal. rewrite IH.
  apply imap_ext. intros j x _. simpl. f_equal. lia.
Qed.

(** With nothing expanded (the state after [collapseAll]) the rows are the
    roots and only them: one row per root, in order, at depth 0, without a
    parent key and not expanded, whatever lies below the roots. *)
Theorem collapseAll_shows_roots (p : Props) (s : EngineState) :
  flattenedData p (collapseAll s) = imap (makeRow ∅ 0 None) (data p) /\
  length (flattenedData p (collapseAll s)) = length (data p) /\
  Forall (fun r => level r = 0%nat /\ parentKey r = None /\ isExpanded r = false)
         (flattenedData p (collapseAll s)).
Proof.
  assert (flattenedData p (collapseAll s) = imap (makeRow ∅ 0 None) (data p)) as Heq.
  { unfold flattenedData, flattenTree. simpl. by rewrite flattenFrom_collapsed. }
  rewrite Heq. split_and!; [done|by rewrite length_imap|].
  apply Forall_forall. intros r Hr.
  apply list_elem_of_lookup in Hr as [j Hj].
  rewrite list_lookup_imap in Hj.
  destruct (data p !! j) as [n|]; [|done]. simpl in Hj. injection Hj as <-.
  by split_and!.
Qed.

Lemma flattenFrom_keys_sublist E lvl pk i nodes :
  Forall (fun k => truthyKey k = true) (allKeys nodes) ->
  (Some ∘ row_key) <$> flattenFrom E lvl pk i nodes `sublist_of` allKeys nodes.
Proof.
  revert lvl pk i.
  induction nodes as [|c rest IHc IHrest] using forest_ind; intros lvl pk i Htruthy.
  - constructor.
  - cbn [flattenFrom allKeys] in *. rewrite keysUnder_eq in *.
    apply Forall_app in Htruthy as [Hc Hrest].
    apply Forall_cons in Hc as [Hkey Hkids].
    rewrite flattenNode_eq, fmap_app, fmap_cons.
    apply sublist_app; [|by apply IHrest].
    replace ((Some ∘ row_key) (makeRow E lvl pk i c)) with (key c)
      by (simpl; by apply effectiveKey_truthy).
    apply sublist_skip.
    destruct (_ && _); [by apply IHc|apply sublist_nil_l].
Qed.

(** When every node has a key of its own and no two nodes share one, no two
    rows share a key, whatever is expanded: a row key identifies its row
    and its cached height. *)
Theorem flattenTree_row_keys_distinct (E : gset (option string)) (data : list TreeNode) :
  Forall (fun k => truthyKey k = true) (allKeys data) ->
  NoDup (allKeys data) ->
  NoDup (row_key <$> flattenTree E data 0 None).
Proof.
  intros Htruthy Hnodup.
  apply (NoDup_fmap_1 Some). rewrite <- list_fmap_compose.
  eapply sublist_NoDup; [exact Hnodup|]. unfold flattenTree.
  by apply flattenFrom_keys_sublist.
Qed.

Lemma flattenTree_row_keys_distinct_witness :
  NoDup (row_key <$> flattenTree {[Some "C"]} scenarioTree 0 None).
Proof.
  apply (flattenTree_row_keys_distinct {[Some "C"]} scenarioTree).
  - by repeat constructor.
  - apply (bool_decide_unpack _). by vm_compute.
Defined.

Lemma flattenFrom_all_expanded E lvl pk i nodes :
  Forall (fun k => truthyKey k = true) (allKeys nodes) ->
  (forall n, inTree n nodes -> children n <> [] -> key n ∈ E) ->
  (Some ∘ row_key) <$> flattenFrom E lvl pk i nodes = allKeys nodes.
Proof.
  revert lvl pk i.
  induction nodes as [|c rest IHc IHrest] using forest_ind;
    intros lvl pk i Htruthy Hbranch; [done|].
  cbn [flattenFrom allKeys] in *. rewrite keysUnder_eq in *.
  apply Forall_app in Htruthy as [Hc Hrest].
  apply Forall_cons in Hc as [Hkey Hkids].
  rewrite flattenNode_eq, fmap_app, fmap_cons.
  rewrite IHrest; [|done|intros n Hn; apply Hbranch, inTree_cons; auto].
  f_equal.
  pose proof (effectiveKey_truthy pk i c Hkey) as Hown.
  replace ((Some ∘ row_key) (makeRow E lvl pk i c)) with (key c) by done.
  f_equal. rewrite makeRow_eq. cbn [hasChildren isExpanded row_key].
  destruct (decide (children c = [])) as [Hnil|Hkids'].
  - rewrite Hnil. by rewrite bool_decide_eq_false_2 by auto.
  - rewrite bool_decide_eq_true_2 by done.
    rewrite bool_decide_eq_true_2
      by (rewrite <- Hown; apply Hbranch; [apply inTree_cons; auto|done]).
    cbn [andb]. apply IHc; [done|].
    intros n Hn. apply Hbranch, inTree_cons. auto.
Qed.

(** When every node has a key of its own, the rows after [expandAll] are
    all the nodes of the tree, each once, in document order. *)
Theorem expandAll_shows_all (p : Props) (s : EngineState) :
  Forall (fun k => truthyKey k = true) (allKeys (data p)) ->
  (Some ∘ row_key) <$> flattenedData p (expandAll p s) = allKeys (data p) /\
  length (flattenedData p (expandAll p s)) = length (allKeys (data p)).
Proof.
  intros Htruthy.
  assert ((Some ∘ row_key) <$> flattenedData p (expandAll p s) = allKeys (data p)) as Heq.
  { unfold flattenedData, flattenTree. apply flattenFrom_all_expanded; [done|].
    intros n Hn Hkids. simpl. rewrite elem_of_list_to_set. apply getAllKeys_spec. eauto. }
  split; [done|]. by rewrite <- Heq, length_fmap.
Qed.

Lemma expandAll_shows_all_witness :
  (Some ∘ row_key) <$> flattenedData scenarioProps (expandAll scenarioProps initialState)
    = [Some "A"; Some "B"; Some "C"; Some "D"].
Proof.
  apply (proj1 (expandAll_shows_all scenarioProps initialState
                  ltac:(by repeat constructor))).
Defined.

(** The row of a root without a key of its own, at sibling index [i], is
    expanded after [expandAll] only if some node with children happens to
    carry the synthesized key "null-i" as its own key: [getAllKeys] pushes
    the key fields, [flattenTree] looks up the key it made up. *)
Theorem expandAll_keyless_root_row (p : Props) (s : EngineState) (i : nat) (n : TreeNode) :
  data p !! i = Some n ->
  truthyKey (key n) = false ->
  exists r,
    r ∈ flattenedData p (expandAll p s) /\
    row_node r = n /\
    row_key r = synthKey None i /\
    (isExpanded r = true <->
     exists m, inTree m (data p) /\ children m <> [] /\ key m = Some (synthKey None i)).
Proof.
  intros Hi Hfalsy.
  set (E := expandedKeys (expandAll p s)).
  pose proof (visible_root E 0 None (data p) i n Hi) as Hv.
  destruct (flattenTree_spec E (data p) 0 None) as (paths & Hrows & _ & _ & Hall).
  assert ([i] ∈ paths) as Hpath by (apply (Hall _ _ Hv); simpl; lia).
  apply list_elem_of_lookup in Hpath as [m Hm].
  destruct (Forall2_lookup_l _ _ _ _ _ Hrows Hm) as (r & Hr & Hv').
  pose proof (visibleAt_functional _ _ _ _ _ _ _ Hv Hv') as <-.
  eexists. split; [by eapply list_elem_of_lookup_2|].
  cbn [row_node row_key isExpanded]. rewrite (effectiveKey_falsy _ _ _ Hfalsy).
  split_and!; try done.
  rewrite bool_decide_eq_true. subst E. simpl.
  rewrite elem_of_list_to_set. apply getAllKeys_spec.
Qed.

Lemma expandAll_keyless_root_row_witness :
  exists r,
    r ∈ flattenedData keylessProps (expandAll keylessProps initialState) /\
    row_node r = mkTreeNode None "root" [leafNode "c"] /\
    row_key r = synthKey None 0 /\
    (isExpanded r = true <->
     exists m, inTree m (data keylessProps) /\ children m <> [] /\
               key m = Some (synthKey None 0)).
Proof.
  apply (expandAll_keyless_root_row keylessProps initialState 0
           (mkTreeNode None "root" [leafNode "c"]) eq_refl eq_refl).
Defined.

(** Toggling a key twice gives back the state; the two notifications carry
    opposite flags. *)
Theorem toggleExpand_twice (p : Props) (k : string) (s : EngineState) :
  (toggleExpand p k (toggleExpand p k s).1).1 = s /\
  (onNodeExpand p = true ->
   exists flag,
     (toggleExpand p k s).2 = [NodeExpand k flag] /\
     (toggleExpand p k (toggleExpand p k s).1).2 = [NodeExpand k (negb flag)]).
Proof.
  unfold toggleExpand. cbn [fst snd setExpandedKeys expandedKeys].
  destruct (decide (Some k ∈ expandedKeys s)) as [Hin|Hout].
  - rewrite !(bool_decide_eq_true_2 _ Hin).
    assert (Some k ∉ expandedKeys s ∖ {[Some k]}) as Hgone
      by (rewrite elem_of_difference, elem_of_singleton; tauto).
    rewrite !(bool_decide_eq_false_2 _ Hgone). split.
    + destruct s as [E ? ? ? ?]. unfold setExpandedKeys. cbn in *. f_equal.
      apply set_eq. intros x.
      rewrite elem_of_union, elem_of_difference, elem_of_singleton.
      destruct (decide (x = Some k)) as [->|]; tauto.
    + intros ->. by exists false.
  - rewrite !(bool_decide_eq_false_2 _ Hout).
    assert (Some k ∈ expandedKeys s ∪ {[Some k]}) as Hthere
      by (rewrite elem_of_union, elem_of_singleton; tauto).
    rewrite !(bool_decide_eq_true_2 _ Hthere). split.
    + destruct s as [E ? ? ? ?]. unfold setExpandedKeys. cbn in *. f_equal.
      apply set_eq. intros x.
      rewrite elem_of_difference, elem_of_union, elem_of_singleton.
      split; [tauto|]. intros Hx. split; [tauto|]. by intros ->.
    + intros ->. by exists true.
Qed.

Lemma toggleExpand_twice_witness :
  exists flag,
    (toggleExpand scenarioProps "C" initialState).2 = [NodeExpand "C" flag] /\
    (toggleExpand scenarioProps "C" (toggleExpand scenarioProps "C" initialState).1).2
      = [NodeExpand "C" (negb flag)].
Proof. apply (proj2 (toggleExpand_twice scenarioProps "C" initialState) eq_refl). Defined.

(** ** What the state keeps *)

(** Closes the parts of [wellFormed] for a session whose fields are given. *)
Ltac session_facts :=
  repeat split; simpl in *; intros;
  repeat match goal with
         | H : is_Some None |- _ => by destruct H
         | H : false = true |- _ => discriminate H
         | |- is_Some (Some _) => eauto
         end;
  try done; try tauto.

Lemma wellFormed_initial : wellFormed initialState.
Proof. session_facts. Qed.

Lemma wellFormed_idle s :
  heightCacheRef s = delete "__proto__"%string (nodeHeights s) ->
  wellFormed (setDragState idleDrag s).
Proof. intros Hsync. session_facts. Qed.

Lemma engineStep_wellFormed s s' : wellFormed s -> engineStep s s' -> wellFormed s'.
Proof.
  intros Hwf Hstep. pose proof Hwf as (Hsync & Hdrag & Hdrop & Htarget).
  destruct Hstep as [p k|p| |k h|p node|p node position|p|p node position| ].
  - done.
  - done.
  - done.
  - unfold updateNodeHeight. case_bool_decide; [done|].
    split_and!; try done. cbn. rewrite Hsync.
    destruct (decide (k = "__proto__"%string)) as [->|Hk].
    + unfold assignProp, spreadWith. rewrite lookup_delete_eq. cbn.
      by rewrite delete_insert_eq.
    + rewrite assignProp_plain by done. unfold spreadWith.
      by rewrite delete_insert_ne.
  - unfold handleDragStart. destruct (draggable p); [|done]. session_facts.
  - unfold handleDragOver. destruct (draggable p); [|done].
    destruct (dragging (dragState s)) eqn:Hd; [|exact Hwf]. session_facts.
  - unfold handleDragLeave. destruct (draggable p); [|done]. session_facts.
  - unfold handleDrop. destruct (draggable p); [|done].
    destruct (dragNode (dragState s)); [|done].
    destruct (String.eqb _ _); by apply wellFormed_idle.
  - by apply wellFormed_idle.
Qed.

(** In every state the engine reaches from its initial state, by any
    sequence of its operations under any props: the ref cache holds the
    entries of the state copy of the heights other than an entry
    "__proto__", the session is dragging exactly when a
    drag node is recorded, and a drop target is recorded together with its
    position and only while dragging. *)
Theorem reachable_wellFormed (s : EngineState) :
  rtc engineStep initialState s -> wellFormed s.
Proof.
  intros Hreach.
  eapply (rtc_ind_r (fun z => wellFormed z) initialState);
    [apply wellFormed_initial| |exact Hreach].
  intros y z _ Hstep IH. by eapply engineStep_wellFormed.
Qed.

Lemma reachable_wellFormed_witness :
  wellFormed (handleDragOver scenarioProps rowC before
                (handleDragStart scenarioProps rowB
                   (updateNodeHeight "A" 40
                      (updateNodeHeight "__proto__" 32 initialState)))).
Proof.
  apply reachable_wellFormed.
  eapply rtc_l; [apply (step_updateNodeHeight _ "__proto__" 32)|].
  eapply rtc_l; [apply (step_updateNodeHeight _ "A" 40)|].
  eapply rtc_l; [apply (step_dragStart _ scenarioProps rowB)|].
  eapply rtc_l; [apply (step_dragOver _ scenarioProps rowC before)|].
  apply rtc_refl.
Defined.

(** ** The window over a stacked table *)

Lemma jsAdd_number a b z :
  jsAdd a b = Num z <-> exists x y, a = Num x /\ b = Num y /\ z = x + y.
Proof.
  destruct a as [x|], b as [y|]; simpl; split;
    try (intros (? & ? & ? & ? & ?)); try done.
  - intros [= <-]. by exists x, y.
  - by simplify_eq.
Qed.

Lemma bottomReaches_number vt p :
  bottomReaches vt p = true <->
  exists t h, top p = Num t /\ height p = Num h /\ t + h >= vt.
Proof.
  unfold bottomReaches. destruct (top p) as [t|], (height p) as [h|]; simpl; split;
    try (intros (? & ? & ? & ? & ?)); try done.
  - intros H. exists t, h. split_and!; [done..|lia].
  - simplify_eq. lia.
Qed.

Lemma topExceeds_number vb p :
  topExceeds vb p = true <-> exists t, top p = Num t /\ t > vb.
Proof.
  unfold topExceeds. destruct (top p) as [t|]; simpl; split;
    try (intros (? & ? & ?)); try done.
  - intros H. exists t. split; [done|lia].
  - simplify_eq. lia.
Qed.

Lemma rowHeight_ge m heights minHeight k x :
  m <= minHeight ->
  map_Forall (fun _ h => h = 0 \/ m <= h) heights ->
  rowHeight heights minHeight k = Num x -> m <= x.
Proof.
  intros Hmin Hall. unfold rowHeight, getProp.
  destruct (heights !! k) as [h|] eqn:Hk.
  - destruct (Z.eqb_spec h 0); intros [= <-]; [done|].
    by destruct (Hall k h Hk).
  - destruct (bool_decide (k ∈ prototypeMembers)); [done|]. by intros [= <-].
Qed.

Lemma layout_stacked m heights minHeight rows :
  m <= minHeight ->
  map_Forall (fun _ h => h = 0 \/ m <= h) heights ->
  stacked m (layout heights minHeight rows).1.
Proof.
  intros Hmin Hall. unfold layout. split_and!.
  - apply layoutFrom_head.
  - apply layoutFrom_step.
  - apply Forall_forall. intros p Hp h.
    apply list_elem_of_lookup in Hp as [i Hi].
    rewrite (layoutFrom_height _ _ _ _ _ _ Hi). by apply rowHeight_ge.
Qed.

(** Over rows with plain keys every top and every height of the layout is a
    number. *)
Lemma layout_numbers heights minHeight rows i p :
  plainKeys heights rows ->
  (layout heights minHeight rows).1 !! i = Some p ->
  exists t h, top p = Num t /\ height p = Num h.
Proof.
  intros Hplain. unfold layout.
  assert (forall j q, (layoutFrom heights minHeight (Num 0) rows).1 !! j = Some q ->
                      exists h, height q = Num h) as Hheight.
  { intros j q Hq. rewrite (layoutFrom_height _ _ _ _ _ _ Hq).
    eexists. apply rowHeight_number.
    assert (pos_key q ∈ row_key <$> rows) as Hin.
    { rewrite <- (layoutFrom_fst_keys heights minHeight rows (Num 0)).
      apply list_elem_of_fmap. exists q. split; [done|].
      by eapply list_elem_of_lookup_2. }
    apply list_elem_of_fmap in Hin as (r & -> & Hr).
    unfold plainKeys in Hplain. rewrite Forall_forall in Hplain. by apply Hplain. }
  revert p. induction i as [|i IH]; intros p Hp.
  - destruct (Hheight _ _ Hp) as [h Hh].
    exists 0, h. split; [by eapply layoutFrom_head|done].
  - assert (is_Some ((layoutFrom heights minHeight (Num 0) rows).1 !! i)) as [q Hq]
      by (apply lookup_lt_is_Some; apply lookup_lt_Some in Hp; lia).
    destruct (IH q Hq) as (t & h & Ht & Hh).
    destruct (Hheight _ _ Hp) as [h' Hh'].
    exists (t + h), h'. split; [|done].
    rewrite (layoutFrom_step _ _ _ _ _ _ _ Hq Hp). by rewrite Ht, Hh.
Qed.

(** When the top of a row is a number, so are the top and the height of
    every row before it, and the bottom of such a row is at most that top,
    with [m] more for each row in between. *)
Lemma stacked_gap m ps d k p q tq :
  stacked m ps -> 0 <= m ->
  ps !! k = Some p -> ps !! (k + S d)%nat = Some q -> top q = Num tq ->
  exists tp hp, top p = Num tp /\ height p = Num hp /\
                tp + hp + m * Z.of_nat d <= tq.
Proof.
  intros (_ & Hstep & Hm) Hm0 Hp. revert q tq.
  induction d as [|d IH]; intros q tq Hq Htq.
  - replace (k + 1)%nat with (S k) in Hq by lia.
    rewrite (Hstep _ _ _ Hp Hq) in Htq.
    apply jsAdd_number in Htq as (tp & hp & Htp & Hhp & ->).
    exists tp, hp. split_and!; [done..|lia].
  - assert (is_Some (ps !! (k + S d)%nat)) as [q' Hq'].
    { apply lookup_lt_is_Some. apply lookup_lt_Some in Hq. lia. }
    replace (k + S (S d))%nat with (S (k + S d)) in Hq by lia.
    rewrite (Hstep _ _ _ Hq' Hq) in Htq.
    apply jsAdd_number in Htq as (tq' & hq' & Htq' & Hhq' & ->).
    destruct (IH q' tq' Hq' Htq') as (tp & hp & Htp & Hhp & Hle).
    exists tp, hp. split_and!; [done..|].
    rewrite Forall_forall in Hm.
    assert (m <= hq') by (apply (Hm q'); [by eapply list_elem_of_lookup_2|done]).
    lia.
Qed.

Lemma stacked_tops_monotone m ps k l p q tq :
  stacked m ps -> 0 <= m -> (k <= l)%nat ->
  ps !! k = Some p -> ps !! l = Some q -> top q = Num tq ->
  exists tp, top p = Num tp /\ tp <= tq.
Proof.
  intros Hst Hm0 Hle Hp Hq Htq.
  destruct (decide (k = l)) as [->|Hne]; [simplify_eq; by exists tq|].
  replace l with (k + S (l - k - 1))%nat in Hq by lia.
  destruct (stacked_gap _ _ _ _ _ _ _ Hst Hm0 Hp Hq Htq) as (tp & hp & Htp & Hhp & Hgap).
  destruct Hst as (_ & _ & Hall). rewrite Forall_forall in Hall.
  assert (m <= hp) by (apply (Hall p); [by eapply list_elem_of_lookup_2|done]).
  exists tp. split; [done|nia].
Qed.

(** A list splits at its first element with a decidable property, or has
    none. *)
Lemma first_split {A} (P : A -> Prop) `{!forall x, Decision (P x)} (l : list A) :
  Forall (fun x => ~ P x) l \/
  exists pre x post, l = pre ++ x :: post /\ Forall (fun y => ~ P y) pre /\ P x.
Proof.
  induction l as [|a l IH]; [by left|].
  destruct (decide (P a)) as [Ha|Ha].
  - right. by exists [], a, l.
  - destruct IH as [Hnone|(pre & x & post & -> & Hpre & Hx)].
    + left. by constructor.
    + right. exists (a :: pre), x, post. split_and!; [done|by constructor|done].
Qed.

(** The two scans of [visibleRange] over a stacked table in which some row
    ends at or below viewportTop: [i] is the first such row, [j] the first
    row from [start] on that begins after viewportBottom. *)
Lemma visibleRange_scans m ps rectTop innerHeight ov :
  stacked m ps -> 0 <= m -> 0 <= ov -> 0 <= innerHeight ->
  Exists (fun p => bottomReaches (Z.max 0 (- rectTop)) p = true) ps ->
  let vt := Z.max 0 (- rectTop) in
  let vb := vt + innerHeight in
  let r := visibleRange (Some rectTop) innerHeight ov ps in
  exists (i : nat) (pi : Position) (ti hi : Z),
    ps !! i = Some pi /\
    top pi = Num ti /\ height pi = Num hi /\
    ti + hi >= vt /\ ti <= vb /\
    (forall k q, (k < i)%nat -> ps !! k = Some q -> ~ bottomReaches vt q = true) /\
    range_start r = Z.max 0 (Z.of_nat i - ov) /\
    ((range_end r = Z.of_nat (length ps) - 1 /\
      forall k q, (Z.to_nat (range_start r) <= k)%nat -> ps !! k = Some q ->
                  ~ topExceeds vb q = true)
     \/
     exists (j : nat) (pj : Position),
       (i < j)%nat /\ ps !! j = Some pj /\ topExceeds vb pj = true /\
       (forall k q, (Z.to_nat (range_start r) <= k < j)%nat -> ps !! k = Some q ->
                    ~ topExceeds vb q = true) /\
       range_end r = Z.min (Z.of_nat (length ps) - 1) (Z.of_nat j + ov)).
Proof.
  intros Hst Hm0 Hov Hih Hex vt vb r.
  assert (ps <> []) as Hne by (by destruct Hex).
  subst r. rewrite visibleRange_measured by done. cbn [range_start range_end].
  fold vt. fold vb.
  destruct (first_split (fun p => bottomReaches vt p = true) ps)
    as [Hnone|(pre & pi & post & Hsplit & Hpre & Hpi)].
  { exfalso. apply Exists_exists in Hex as (x & Hx & HP).
    rewrite Forall_forall in Hnone. by apply (Hnone x). }
  set (i := length pre).
  assert (ps !! i = Some pi) as Hi
    by (rewrite Hsplit; by apply list_lookup_middle).
  assert (forall k q, (k < i)%nat -> ps !! k = Some q -> ~ bottomReaches vt q = true)
    as Hbefore.
  { intros k q Hk Hq. rewrite Hsplit, lookup_app_l in Hq by done.
    rewrite Forall_forall in Hpre. apply Hpre. by eapply list_elem_of_lookup_2. }
  assert (findStart ov vt 0 ps = Z.max 0 (Z.of_nat i - ov)) as Hstart
    by (rewrite Hsplit; by apply findStart_found).
  pose proof Hpi as Hpi'. apply bottomReaches_number in Hpi' as (ti & hi & Hti & Hhi & Hreach).
  assert (ti <= vb) as Htopi.
  { destruct Hst as (Hhead & Hstep & _). destruct i as [|i'] eqn:Hi'.
    - rewrite (Hhead _ Hi) in Hti. simplify_eq. lia.
    - assert (is_Some (ps !! i')) as [q Hq]
        by (apply lookup_lt_is_Some; apply lookup_lt_Some in Hi; lia).
      rewrite (Hstep _ _ _ Hq Hi) in Hti.
      apply jsAdd_number in Hti as (tq & hq & Htq & Hhq & ->).
      assert (~ bottomReaches vt q = true) as Hno by (apply (Hbefore i'); [lia|done]).
      rewrite bottomReaches_number in Hno.
      destruct (decide (tq + hq >= vt)) as [Hge|?]; [|lia].
      exfalso. apply Hno. by exists tq, hq. }
  exists i, pi, ti, hi. split_and!; try done.
  rewrite Hstart.
  set (start := Z.to_nat (Z.max 0 (Z.of_nat i - ov))).
  assert (start <= i)%nat as Hsi by lia.
  destruct (first_split (fun p => topExceeds vb p = true) (drop start ps))
    as [Hnone|(pre' & pj & post' & Hsplit' & Hpre' & Hpj)].
  - left. split; [by apply findEnd_none|].
    intros k q Hk Hq. rewrite Forall_forall in Hnone.
    apply Hnone. apply list_elem_of_lookup. exists (k - start)%nat.
    rewrite lookup_drop. by replace (start + (k - start))%nat with k by lia.
  - right. set (j := (start + length pre')%nat).
    assert (ps !! j = Some pj) as Hj.
    { unfold j. rewrite <- lookup_drop, Hsplit'. by apply list_lookup_middle. }
    assert (forall k q, (start <= k < j)%nat -> ps !! k = Some q ->
                        ~ topExceeds vb q = true) as Hmid.
    { intros k q Hk Hq. rewrite Forall_forall in Hpre'.
      apply Hpre'. apply list_elem_of_lookup. exists (k - start)%nat.
      assert (drop start ps !! (k - start)%nat = Some q) as Hd
        by (rewrite lookup_drop; by replace (start + (k - start))%nat with k by lia).
      rewrite Hsplit', lookup_app_l in Hd by (unfold j in Hk; lia). done. }
    exists j, pj. split_and!; try done.
    + destruct (decide (i < j)%nat) as [?|Hji]; [done|]. exfalso.
      apply topExceeds_number in Hpj as (tj & Htj & Hgt).
      destruct (stacked_tops_monotone m ps j i pj pi ti Hst Hm0 ltac:(lia) Hj Hi Hti)
        as (tj' & Htj' & Hle).
      assert (tj' = tj) as -> by congruence. lia.
    + rewrite Hsplit'. by apply findEnd_found.
Qed.

(** Rows of a layout never overlap.  With a non-negative minimum height and
    non-negative cached heights, every height that is a number is not
    negative; when the top of a row is a number, every row before it has a
    number for its top and for its height, and its bottom edge is at or
    above that top; and over rows with plain keys every top and every
    height is a number. *)
Theorem layout_rows_do_not_overlap (heights : gmap string Z) (minHeight : Z)
    (rows : list FlattenedRow) :
  0 <= minHeight ->
  map_Forall (fun _ h => 0 <= h) heights ->
  (forall k p h,
     (layout heights minHeight rows).1 !! k = Some p -> height p = Num h -> 0 <= h) /\
  (forall k l p q tq,
     (k < l)%nat ->
     (layout heights minHeight rows).1 !! k = Some p ->
     (layout heights minHeight rows).1 !! l = Some q ->
     top q = Num tq ->
     exists tp hp, top p = Num tp /\ height p = Num hp /\ tp + hp <= tq) /\
  (plainKeys heights rows ->
   forall k p, (layout heights minHeight rows).1 !! k = Some p ->
               exists t h, top p = Num t /\ height p = Num h).
Proof.
  intros Hmin Hall.
  assert (stacked 0 (layout heights minHeight rows).1) as Hst.
  { apply layout_stacked; [done|]. intros key h Hk. right. by apply (Hall key h). }
  split_and!.
  - intros k p h Hp Hh. destruct Hst as (_ & _ & Hge). rewrite Forall_forall in Hge.
    eapply Hge; [by eapply list_elem_of_lookup_2|done].
  - intros k l p q tq Hkl Hp Hq Htq.
    replace l with (k + S (l - k - 1))%nat in Hq by lia.
    destruct (stacked_gap 0 _ _ _ _ _ _ Hst ltac:(done) Hp Hq Htq)
      as (tp & hp & Htp & Hhp & Hle).
    exists tp, hp. split_and!; [done..|lia].
  - intros Hplain k p Hp. by eapply layout_numbers.
Qed.

Lemma layout_rows_do_not_overlap_witness :
  exists tp hp,
    top (mkPosition "A" 0 32) = Num tp /\ height (mkPosition "A" 0 32) = Num hp /\
    tp + hp <= 72.
Proof.
  apply (proj1 (proj2 (layout_rows_do_not_overlap scenarioHeights 32 scenarioRows
                         ltac:(done)
                         ltac:(by apply (bool_decide_unpack _); vm_compute)))
           0%nat 2%nat (mkPosition "A" 0 32) (mkPosition "D" 72 32) 72);
    [lia|by vm_compute|by vm_compute|done].
Defined.

(** No row that intersects the viewport is left out: over a layout with
    non-negative heights and a non-negative overscan, every row whose
    bottom edge is >= viewportTop and whose top edge is <= viewportBottom
    (the two comparisons of the code, the first holding and the second
    failing) has its index between [start] and [end]. *)
Theorem visibleRange_covers_viewport (heights : gmap string Z) (minHeight : Z)
    (rows : list FlattenedRow) (rectTop innerHeight ov : Z) (k : nat) (q : Position) :
  0 <= minHeight ->
  map_Forall (fun _ h => 0 <= h) heights ->
  0 <= ov -> 0 <= innerHeight ->
  (layout heights minHeight rows).1 !! k = Some q ->
  bottomReaches (Z.max 0 (- rectTop)) q = true ->
  topExceeds (Z.max 0 (- rectTop) + innerHeight) q = false ->
  range_start (visibleRange (Some rectTop) innerHeight ov (layout heights minHeight rows).1)
    <= Z.of_nat k
    <= range_end (visibleRange (Some rectTop) innerHeight ov (layout heights minHeight rows).1).
Proof.
  intros Hmin Hall Hov Hih Hq Hbottom Htop.
  set (ps := (layout heights minHeight rows).1) in *.
  assert (stacked 0 ps) as Hst.
  { apply layout_stacked; [done|]. intros key h Hk. right. by apply (Hall key h). }
  assert (Exists (fun p => bottomReaches (Z.max 0 (- rectTop)) p = true) ps) as Hex
    by (apply Exists_exists; exists q; split; [by eapply list_elem_of_lookup_2|done]).
  destruct (visibleRange_scans 0 ps rectTop innerHeight ov Hst ltac:(done) Hov Hih Hex)
    as (i & pi & ti & hi & Hi & Hti & Hhi & Hpi & Htopi & Hbefore & -> & Hend).
  assert (i <= k)%nat as Hik.
  { destruct (decide (i <= k)%nat); [done|]. exfalso.
    apply (Hbefore k q); [lia|done|done]. }
  apply lookup_lt_Some in Hq as Hklen.
  destruct Hend as [[-> _]|(j & pj & Hij & Hj & Hpj & _ & ->)]; [lia|].
  assert (k < j)%nat; [|lia].
  destruct (decide (k < j)%nat); [done|]. exfalso.
  apply bottomReaches_number in Hbottom as (tq & hq & Htq & _ & _).
  apply topExceeds_number in Hpj as (tj & Htj & Hgt).
  destruct (stacked_tops_monotone 0 ps j k pj q tq Hst ltac:(done) ltac:(lia) Hj Hq Htq)
    as (tj' & Htj' & Hle).
  unfold topExceeds in Htop. rewrite Htq in Htop. simpl in Htop.
  assert (tj' = tj) as -> by congruence. lia.
Qed.

Lemma visibleRange_covers_viewport_witness :
  range_start (visibleRange (Some (-100)) 50 1 (layout ∅ 32 (flattenTree ∅ eightLeaves 0 None)).1)
    <= Z.of_nat 4
    <= range_end (visibleRange (Some (-100)) 50 1 (layout ∅ 32 (flattenTree ∅ eightLeaves 0 None)).1).
Proof.
  apply (visibleRange_covers_viewport ∅ 32 (flattenTree ∅ eightLeaves 0 None)
           (-100) 50 1 4 (mkPosition "4" 128 32));
    try done; try lia; try (by vm_compute).
Defined.

(** The window is bounded by the viewport, not by the size of the tree:
    over a layout of rows with plain keys that are at least [m > 0] high,
    while some row still ends at or below viewportTop, the range holds at
    most innerHeight / m + 2 * overscan + 3 rows. *)
Theorem visibleRange_size_bound (m : Z) (heights : gmap string Z) (minHeight : Z)
    (rows : list FlattenedRow) (rectTop innerHeight ov : Z) :
  0 < m -> m <= minHeight ->
  map_Forall (fun _ h => h = 0 \/ m <= h) heights ->
  plainKeys heights rows ->
  0 <= ov -> 0 <= innerHeight ->
  Exists (fun p => bottomReaches (Z.max 0 (- rectTop)) p = true)
         (layout heights minHeight rows).1 ->
  m * (range_end (visibleRange (Some rectTop) innerHeight ov (layout heights minHeight rows).1)
       - range_start (visibleRange (Some rectTop) innerHeight ov (layout heights minHeight rows).1)
       - 2 * ov - 2)
    <= innerHeight.
Proof.
  intros Hm Hmin Hall Hplain Hov Hih Hex.
  pose proof (layout_numbers heights minHeight rows) as Hnum.
  set (ps := (layout heights minHeight rows).1) in *.
  assert (stacked m ps) as Hst by (by apply layout_stacked).
  destruct (visibleRange_scans m ps rectTop innerHeight ov Hst ltac:(lia) Hov Hih Hex)
    as (i & pi & ti & hi & Hi & Hti & Hhi & Hpi & Htopi & Hbefore & -> & Hend).
  set (vt := Z.max 0 (- rectTop)) in *.
  apply lookup_lt_Some in Hi as Hilen.
  (* the rows strictly between [i] and a row [l] whose top is within the viewport *)
  assert (forall l q, (i < l)%nat -> ps !! l = Some q ->
                      ~ topExceeds (vt + innerHeight) q = true ->
                      m * (Z.of_nat l - Z.of_nat i - 1) <= innerHeight) as Hspan.
  { intros l q Hil Hq Htop.
    destruct (Hnum l q Hplain Hq) as (tq & hq & Htq & _).
    assert (tq <= vt + innerHeight).
    { destruct (decide (tq > vt + innerHeight)) as [Hgt|?]; [|lia].
      exfalso. apply Htop. apply topExceeds_number. by exists tq. }
    replace l with (i + S (l - i - 1))%nat in Hq by lia.
    destruct (stacked_gap m _ _ _ _ _ _ Hst ltac:(lia) Hi Hq Htq)
      as (ti' & hi' & Hti' & Hhi' & Hgap).
    assert (ti' = ti) as -> by congruence.
    assert (hi' = hi) as -> by congruence. nia. }
  destruct Hend as [[-> Hall']|(j & pj & Hij & Hj & Hpj & Hmid & ->)].
  - destruct (decide (i = length ps - 1)%nat) as [Hlast|Hnot]; [nia|].
    assert (is_Some (ps !! (length ps - 1)%nat)) as [q Hq]
      by (apply lookup_lt_is_Some; lia).
    assert (m * (Z.of_nat (length ps - 1) - Z.of_nat i - 1) <= innerHeight).
    { apply (Hspan _ q); [lia|done|]. apply (Hall' (length ps - 1)%nat); [lia|done]. }
    nia.
  - destruct (decide (j = S i)) as [->|Hnot]; [nia|].
    assert (is_Some (ps !! (j - 1)%nat)) as [q Hq]
      by (apply lookup_lt_is_Some; apply lookup_lt_Some in Hj; lia).
    assert (m * (Z.of_nat (j - 1) - Z.of_nat i - 1) <= innerHeight).
    { apply (Hspan _ q); [lia|done|]. apply (Hmid (j - 1)%nat); [lia|done]. }
    nia.
Qed.

Lemma visibleRange_size_bound_witness :
  32 * (range_end (visibleRange (Some (-100)) 50 1 (layout ∅ 32 (flattenTree ∅ eightLeaves 0 None)).1)
        - range_start (visibleRange (Some (-100)) 50 1 (layout ∅ 32 (flattenTree ∅ eightLeaves 0 None)).1)
        - 2 * 1 - 2)
    <= 50.
Proof.
  apply (visibleRange_size_bound 32 ∅ 32 (flattenTree ∅ eightLeaves 0 None) (-100) 50 1);
    try done; try lia.
  - apply (bool_decide_unpack _). by vm_compute.
  - apply Exists_exists. exists (mkPosition "7" 224 32). split; [|done].
    vm_compute. do 7 apply list_elem_of_further. apply list_elem_of_here.
Defined.

(** ** What is rendered *)

Lemma visibleRange_in_table container innerHeight ov ps :
  0 <= ov -> ps <> [] ->
  0 <= range_start (visibleRange container innerHeight ov ps)
    <= range_end (visibleRange container innerHeight ov ps) /\
  range_end (visibleRange container innerHeight ov ps) <= Z.of_nat (length ps) - 1.
Proof.
  intros Hov Hne. destruct container as [rectTop|].
  - rewrite visibleRange_measured by done. simpl.
    destruct (findStart_bounds ov (Z.max 0 (- rectTop)) 0 ps) as [Hlo Hhi].
    specialize (Hhi Hne Hov). simpl in Hhi.
    set (start := findStart ov (Z.max 0 (- rectTop)) 0 ps) in *.
    pose proof (findEnd_bounds ov (Z.max 0 (- rectTop) + innerHeight)
                  (Z.of_nat (length ps) - 1) (Z.to_nat start)
                  (drop (Z.to_nat start) ps) Hov) as Hend.
    rewrite length_drop in Hend. lia.
  - rewrite visibleRange_unmeasured by done. simpl.
    assert (length ps <> 0%nat) by (by destruct ps). lia.
Qed.

Lemma positions_keys p s : pos_key <$> positions p s = row_key <$> flattenedData p s.
Proof. unfold positions, layout. apply layoutFrom_fst_keys. Qed.

(** The rendered rows are the flattened rows with the indices [start] to
    [end], in order and nothing else, and every one of them has its
    position: the render never reads the [top] of a missing position, and
    the position it reads is the one of the row's key. *)
Theorem visibleNodes_are_the_range (p : Props) (s : EngineState)
    (container : option Z) (innerHeight : Z) :
  0 <= overscan p ->
  positions p s <> [] ->
  let r := visibleRange container innerHeight (overscan p) (positions p s) in
  length (visibleNodes p s container innerHeight)
    = Z.to_nat (range_end r - range_start r + 1) /\
  (forall n row,
     visibleNodes p s container innerHeight !! n = Some row <->
     Z.of_nat n <= range_end r - range_start r /\
     flattenedData p s !! (Z.to_nat (range_start r) + n)%nat = Some row) /\
  (forall n row t,
     visibleNodeTops p s container innerHeight !! n = Some (row, t) ->
     exists q, positions p s !! (Z.to_nat (range_start r) + n)%nat = Some q /\
               t = Some (top q) /\ pos_key q = row_key row).
Proof.
  intros Hov Hne r.
  pose proof (visibleRange_in_table container innerHeight (overscan p) _ Hov Hne)
    as [Hse Hend]. fold r in Hse, Hend.
  pose proof (positions_length p s) as Hlen.
  assert (forall n row,
     visibleNodes p s container innerHeight !! n = Some row <->
     Z.of_nat n <= range_end r - range_start r /\
     flattenedData p s !! (Z.to_nat (range_start r) + n)%nat = Some row) as Hlookup.
  { intros n row. unfold visibleNodes, slice. fold r.
    rewrite lookup_take_Some, lookup_drop. split; intros [? ?]; split; try done; lia. }
  split_and!; [|done|].
  - unfold visibleNodes, slice. fold r. rewrite length_take, length_drop. lia.
  - intros n row t Hn. unfold visibleNodeTops in Hn. fold r in Hn.
    rewrite list_lookup_imap in Hn.
    destruct (visibleNodes p s container innerHeight !! n) as [row'|] eqn:Hrow; [|done].
    simpl in Hn. injection Hn as -> <-.
    apply Hlookup in Hrow as [Hn Hrow].
    pose proof (positions_keys p s) as Hkeys.
    apply (f_equal (fun l => l !! (Z.to_nat (range_start r) + n)%nat)) in Hkeys.
    rewrite !list_lookup_fmap, Hrow in Hkeys.
    destruct (positions p s !! (Z.to_nat (range_start r) + n)%nat) as [q|]; [|done].
    exists q. simpl in Hkeys. by injection Hkeys as ->.
Qed.

Lemma visibleNodes_are_the_range_witness :
  length (visibleNodes eightProps initialState (Some (-100)) 50) =
    Z.to_nat (range_end (visibleRange (Some (-100)) 50 (overscan eightProps)
                           (positions eightProps initialState))
              - range_start (visibleRange (Some (-100)) 50 (overscan eightProps)
                               (positions eightProps initialState)) + 1).
Proof.
  apply (visibleNodes_are_the_range eightProps initialState (Some (-100)) 50);
    by vm_compute.
Defined.

(** ** A drag from start to drop, through the row renderer *)



(** ** Expanding more, measuring again *)

Lemma flattenFrom_mono E E' lvl pk i nodes :
  E ⊆ E' ->
  row_key <$> flattenFrom E lvl pk i nodes
    `sublist_of` row_key <$> flattenFrom E' lvl pk i nodes.
Proof.
  intros Hsub. revert lvl pk i.
  induction nodes as [|c rest IHc IHrest] using forest_ind; intros lvl pk i; [done|].
  cbn [flattenFrom]. rewrite !flattenNode_eq, !fmap_app, !fmap_cons.
  apply sublist_app; [|apply IHrest].
  cbn [row_key makeRow hasChildren isExpanded]. apply sublist_skip.
  destruct (nonEmpty (children c)); [|done]. cbn [andb].
  destruct (decide (Some (effectiveKey pk i c) ∈ E)) as [Hin|Hout].
  - rewrite !bool_decide_eq_true_2 by (try done; by apply Hsub). apply IHc.
  - rewrite (bool_decide_eq_false_2 _ Hout). apply sublist_nil_l.
Qed.

(** Expanding more keys never hides a row and never reorders rows: the row
    keys under a smaller expansion state are a subsequence of the row keys
    under a larger one. *)
Theorem flattenTree_monotone (E E' : gset (option string)) (data : list TreeNode) :
  E ⊆ E' ->
  row_key <$> flattenTree E data 0 None `sublist_of` row_key <$> flattenTree E' data 0 None /\
  (length (flattenTree E data 0 None) <= length (flattenTree E' data 0 None))%nat.
Proof.
  intros Hsub.
  pose proof (flattenFrom_mono E E' 0 None 0 data Hsub) as Hkeys.
  split; [done|]. apply sublist_length in Hkeys. by rewrite !length_fmap in Hkeys.
Qed.

Lemma flattenTree_monotone_witness :
  row_key <$> flattenTree {[Some "C"]} scenarioTree 0 None
    `sublist_of` row_key <$> flattenTree {[Some "A"; Some "C"]} scenarioTree 0 None.
Proof.
  apply (flattenTree_monotone {[Some "C"]} {[Some "A"; Some "C"]} scenarioTree).
  apply (bool_decide_unpack _). by vm_compute.
Defined.

Lemma jsAdd_shift t x d : jsAdd (jsAdd t (Num d)) x = jsAdd (jsAdd t x) (Num d).
Proof. destruct t, x; simpl; [f_equal; lia|done..]. Qed.

Lemma layoutFrom_shift heights heights' minHeight rows t d :
  Forall (fun r => rowHeight heights' minHeight (row_key r)
                   = rowHeight heights minHeight (row_key r)) rows ->
  layoutFrom heights' minHeight (jsAdd t (Num d)) rows =
    (shiftBy d <$> (layoutFrom heights minHeight t rows).1,
     jsAdd (layoutFrom heights minHeight t rows).2 (Num d)).
Proof.
  intros Hsame. revert t.
  induction Hsame as [|r rows Hr _ IH]; intros t; simpl; [done|].
  rewrite Hr, jsAdd_shift, IH.
  by destruct (layoutFrom heights minHeight _ rows).
Qed.

Lemma layoutFrom_app heights minHeight t pre post :
  layoutFrom heights minHeight t (pre ++ post) =
    ((layoutFrom heights minHeight t pre).1
       ++ (layoutFrom heights minHeight (layoutFrom heights minHeight t pre).2 post).1,
     (layoutFrom heights minHeight (layoutFrom heights minHeight t pre).2 post).2).
Proof.
  revert t. induction pre as [|r pre IH]; intros t; simpl.
  - by destruct (layoutFrom heights minHeight t post).
  - rewrite IH. by destruct (layoutFrom heights minHeight _ pre).
Qed.

Lemma layoutFrom_same heights heights' minHeight rows t :
  Forall (fun r => rowHeight heights' minHeight (row_key r)
                   = rowHeight heights minHeight (row_key r)) rows ->
  layoutFrom heights' minHeight t rows = layoutFrom heights minHeight t rows.
Proof.
  intros Hsame. revert t.
  induction Hsame as [|r rows Hr _ IH]; intros t; simpl; [done|].
  by rewrite Hr, IH.
Qed.

(** A new height for the key of one row moves the rows below it and
    nothing else.  Over rows with plain keys, when the key occurs in no
    other row and the effective height of the row goes from [old] to [new]:
    every top and every height of the table is a number, the rows above
    keep their positions, the row keeps its top and gets the height [new],
    every row below is shifted by [new - old], and so is the total
    height. *)
Theorem updateNodeHeight_shifts_rows_below (heights : gmap string Z) (minHeight h : Z)
    (pre post : list FlattenedRow) (r : FlattenedRow) (old new : Z) :
  row_key r ∉ row_key <$> pre ->
  row_key r ∉ row_key <$> post ->
  plainKeys heights (pre ++ r :: post) ->
  rowHeight heights minHeight (row_key r) = Num old ->
  rowHeight (spreadWith (row_key r) h heights) minHeight (row_key r) = Num new ->
  let before := layout heights minHeight (pre ++ r :: post) in
  let after := layout (spreadWith (row_key r) h heights) minHeight (pre ++ r :: post) in
  Forall (fun p => exists t x, top p = Num t /\ height p = Num x) before.1 /\
  after.1 =
    take (length pre) before.1
      ++ {| pos_key := row_key r;
            top := (layout heights minHeight pre).2;
            height := Num new |}
      :: (shiftBy (new - old) <$> drop (S (length pre)) before.1) /\
  (layout heights minHeight pre).1 = take (length pre) before.1 /\
  after.2 = jsAdd before.2 (Num (new - old)).
Proof.
  intros Hpre Hpost Hplain Hold Hnew before after. subst before after.
  split.
  { apply Forall_forall. intros q Hq. apply list_elem_of_lookup in Hq as [i Hi].
    by eapply layout_numbers. }
  unfold layout, spreadWith in *.
  assert (forall rows, row_key r ∉ row_key <$> rows ->
            Forall (fun x => rowHeight (<[row_key r := h]> heights) minHeight (row_key x)
                             = rowHeight heights minHeight (row_key x)) rows) as Hother.
  { intros rows Hnot. apply Forall_forall. intros x Hx. unfold rowHeight, getProp.
    rewrite lookup_insert_ne; [done|]. intros Heq. apply Hnot.
    rewrite Heq. by apply list_elem_of_fmap_2. }
  rewrite !layoutFrom_app. rewrite (layoutFrom_same _ _ _ _ _ (Hother pre Hpre)).
  pose proof (f_equal length (layoutFrom_fst_keys heights minHeight pre (Num 0))) as Hlen.
  rewrite !length_fmap in Hlen.
  set (P := layoutFrom heights minHeight (Num 0) pre) in *.
  cbn [layoutFrom]. rewrite Hold, Hnew.
  replace (jsAdd P.2 (Num new)) with (jsAdd (jsAdd P.2 (Num old)) (Num (new - old)))
    by (destruct P.2; simpl; [f_equal; lia|done]).
  rewrite (layoutFrom_shift _ _ _ _ _ _ (Hother post Hpost)).
  destruct (layoutFrom heights minHeight (jsAdd P.2 (Num old)) post)
    as [Q total]. cbn [fst snd].
  rewrite take_app_length' by done.
  rewrite (cons_middle _ P.1 Q), app_assoc.
  rewrite drop_app_length' by (rewrite length_app; simpl; lia).
  done.
Qed.

Lemma updateNodeHeight_shifts_rows_below_witness :
  (layout (spreadWith "C" 50 scenarioHeights) 32 scenarioRows).2
    = jsAdd (layout scenarioHeights 32 scenarioRows).2 (Num (50 - 40)).
Proof.
  pose proof (updateNodeHeight_shifts_rows_below scenarioHeights 32 50
                [makeRow {[Some "C"]} 0 None 0 (branchNode "A" [leafNode "B"])]
                [makeRow {[Some "C"]} 1 (Some "C") 0 (leafNode "D")]
                (makeRow {[Some "C"]} 0 None 1 (branchNode "C" [leafNode "D"]))
                40 50
                ltac:(by apply (bool_decide_unpack _); vm_compute)
                ltac:(by apply (bool_decide_unpack _); vm_compute)
                ltac:(by apply (bool_decide_unpack _); vm_compute)
                ltac:(by vm_compute) ltac:(by vm_compute)) as (_ & _ & _ & Htotal).
  exact Htotal.
Defined.

(** ** Indentation *)

Lemma nested_app lvl pk rows1 rows2 :
  nested lvl pk rows1 -> nested lvl pk rows2 -> nested lvl pk (rows1 ++ rows2).
Proof.
  intros (Hhead1 & Hall1 & Hadj1) (Hhead2 & Hall2 & Hadj2).
  destruct rows1 as [|a rows1]; [done|]. split_and!.
  - intros r Hr. by apply Hhead1.
  - by apply Forall_app.
  - intros i r1 r2 H1 H2.
    destruct (decide (S i < length (a :: rows1))%nat) as [Hin|Hout].
    + rewrite lookup_app_l in H1 by lia. rewrite lookup_app_l in H2 by done. eauto.
    + destruct (decide (i < length (a :: rows1))%nat) as [Hlast|Hpast].
      * rewrite lookup_app_l in H1 by done.
        rewrite lookup_app_r in H2 by lia.
        replace (S i - length (a :: rows1))%nat with 0%nat in H2 by lia.
        apply Hhead2 in H2. rewrite Forall_forall in Hall1.
        destruct (Hall1 r1) as [Hge _]; [by eapply list_elem_of_lookup_2|].
        split; lia.
      * rewrite lookup_app_r in H1 by lia. rewrite lookup_app_r in H2 by lia.
        replace (S i - length (a :: rows1))%nat
          with (S (i - length (a :: rows1))) in H2 by lia.
        eauto.
Qed.

Lemma nested_node lvl pk (row : FlattenedRow) kids :
  level row = lvl -> parentKey row = pk ->
  (kids <> [] -> hasChildren row = true /\ isExpanded row = true) ->
  nested (S lvl) (Some (row_key row)) kids ->
  nested lvl pk (row :: kids).
Proof.
  intros Hlvl Hpk Hexp (Hhead & Hall & Hadj). split_and!.
  - by intros r [= <-].
  - constructor; [split; [lia|done]|].
    eapply Forall_impl; [exact Hall|]. intros r [Hge _]. split; lia.
  - intros [|i] r1 r2 H1 H2; simpl in *.
    + injection H1 as <-. pose proof (Hhead _ H2) as Hr2.
      rewrite Forall_forall in Hall.
      destruct (Hall r2) as [_ Hparent]; [by eapply list_elem_of_lookup_2|].
      split; [lia|]. intros _. split; [by apply Hparent|].
      apply Hexp. by destruct kids.
    + eauto.
Qed.

Lemma flattenFrom_nested E lvl pk i nodes : nested lvl pk (flattenFrom E lvl pk i nodes).
Proof.
  revert lvl pk i.
  induction nodes as [|c rest IHc IHrest] using forest_ind; intros lvl pk i.
  - split_and!; [done|constructor|done].
  - cbn [flattenFrom]. apply nested_app; [|apply IHrest].
    rewrite flattenNode_eq. apply nested_node; try done.
    + destruct (hasChildren _) eqn:Hh, (isExpanded _) eqn:He; by simpl.
    + destruct (_ && _); [apply IHc|]. split_and!; [done|constructor|done].
Qed.

(** The flattened rows are well nested: the first row is at depth 0, a row
    at depth 0 has no parent key, and each following row is at most one
    level deeper than the row before it; when it is one level deeper, the
    row before it is its parent (its key is the row's parentKey) and is an
    expanded row with children. *)
Theorem flattenTree_nesting (E : gset (option string)) (data : list TreeNode) :
  (forall r, flattenTree E data 0 None !! 0%nat = Some r -> level r = 0%nat) /\
  Forall (fun r => level r = 0%nat -> parentKey r = None) (flattenTree E data 0 None) /\
  (forall i r1 r2,
     flattenTree E data 0 None !! i = Some r1 ->
     flattenTree E data 0 None !! S i = Some r2 ->
     (level r2 <= S (level r1))%nat /\
     (level r2 = S (level r1) ->
      parentKey r2 = Some (row_key r1) /\ hasChildren r1 = true /\ isExpanded r1 = true)).
Proof.
  destruct (flattenFrom_nested E 0 None 0 data) as (Hhead & Hall & Hadj).
  split_and!; [done| |done].
  eapply Forall_impl; [exact Hall|]. by intros r [_ ?].
Qed.
